(** * Term-Algebra.js: terms, substitutions and their composition

    A shallow embedding of [Term.js].  The first part models the library on
    immutable values: JavaScript values that reach the library are a small
    sum type, every [throw Error(...)] is a constructor of [error], and a
    method that mutates [this] returns the new state of [this].  The second
    part (module [Heap]) models the same functions on an object store, to
    speak about mutation, aliasing and fresh allocation. *)

From Stdlib Require Import ZArith String.
From stdpp Require Import base list strings.

Set Warnings "-register-all,-clear-no-such-hyp".

Local Open Scope string_scope.
Local Open Scope list_scope.
Local Open Scope stdpp_scope.
Local Open Scope Z_scope.

(** ** Errors and results *)

(** One constructor per [throw Error("...")] of the source, and two more.
    [TypeError] is the runtime's own error for a property read on
    [undefined] or a call of a method the receiver lacks.  [BudgetExhausted]
    is not a JavaScript error: loops and recursions over the object store
    carry a budget, and it is returned when the budget is used up; the
    budgets the theorems name are shown to be enough. *)
Inductive error : Type :=
| VariableNameNotString       (* "Variable name must be a string" *)
| ConstantNameNotString       (* "Constant name must be a string" *)
| FunctionNameNotString       (* "Function name must be a string" *)
| ArityNotInteger             (* "Variable arity must be an integer" *)
| WrongNumberOfArguments (expected : Z) (received : nat)
                              (* "Wrong number of arguments, exected .. received .." *)
| FirstArgumentNotFunc        (* "First argument must be a Func" *)
| ArgsNotArrayOfTerms         (* "args must be an array of terms" *)
| ArgumentNotTerm             (* "Argument must be of type Term" *)
| LeftSideNotTerm             (* "Left side must be a term" *)
| RightSideNotTerm            (* "Right side must be a term" *)
| FirstArgumentNotVariable    (* "First argument must be a variable" *)
| SecondArgumentNotTerm       (* "Second argument must be a term" *)
| VariableAlreadyExists       (* "Variable already exists in substitution" *)
| ArgumentNotVariable         (* "Argument must be of type Variable" *)
| ContainsNotVariable         (* "Substitution contains only considers the variables" *)
| ArgumentNotSubstitution     (* "Argument must be of type substitution" *)
| TypeError
| BudgetExhausted.

Inductive result (A : Type) : Type :=
| Ok (a : A)
| Throw (e : error).
Arguments Ok {A} a.
Arguments Throw {A} e.

#[global] Instance result_ret : MRet result := fun A a => Ok a.
#[global] Instance result_bind : MBind result := fun A B f m =>
  match m with
  | Ok a => f a
  | Throw e => Throw e
  end.

Definition is_Ok {A} (r : result A) : bool :=
  match r with Ok _ => true | Throw _ => false end.

(** [a.map(f)] for a callback that may throw: left to right, stops at the
    first throw. *)
Definition mapR {A B} (f : A -> result B) : list A -> result (list B) :=
  fix go l :=
    match l with
    | [] => Ok []
    | x :: l' =>
        match f x with
        | Ok y => match go l' with
                  | Ok ys => Ok (y :: ys)
                  | Throw e => Throw e
                  end
        | Throw e => Throw e
        end
    end.

(** [for (const x of l) { st = body(st, x) }] over an array [l] that the body
    does not touch. *)
Fixpoint foldR {A St} (body : St -> A -> result St) (l : list A) (st : St) : result St :=
  match l with
  | [] => Ok st
  | x :: l' => st' ← body st x; foldR body l' st'
  end.

(** [for (const x of arr) body] where the body may mutate the very array it
    iterates.  A JavaScript array iterator keeps an index; each step it reads
    the current length, stops when the index is past it, otherwise yields
    [arr[i]] and increments.  [arr st] is the array as the current state has
    it. *)
Fixpoint for_of {A St} (budget : nat) (arr : St -> list A) (body : St -> A -> result St)
    (i : nat) (st : St) : result St :=
  match arr st !! i with
  | None => Ok st
  | Some x =>
      match budget with
      | O => Throw BudgetExhausted
      | S budget' => st' ← body st x; for_of budget' arr body (S i) st'
      end
  end.

(** ** Data model *)

(** A [Func] object: the bound function carrying [symbol_name] and [arity].
    [Number.isInteger] holds of every integer, negative ones included. *)
Record Func : Type := mkFunc { symbol_name : string; arity : Z }.

(** Instances of [Variable], [Constant] and [FuncTerm] ([Variable] is a
    reserved word here, so its constructor is [Var]). *)
Inductive term : Type :=
| Var (name : string)
| Constant (name : string)
| FuncTerm (func : Func) (args : list term).

Definition args_of (t : term) : list term :=
  match t with FuncTerm _ a => a | _ => [] end.

Definition func_of (t : term) : option Func :=
  match t with FuncTerm f _ => Some f | _ => None end.

(** A [Substitution] object: [subs] is the array of [[variable, term]]
    pairs. *)
Record Substitution : Type := mkSubstitution { subs : list (term * term) }.

(** The JavaScript values the library's dynamic checks tell apart. *)
Inductive value : Type :=
| VUndefined
| VString (s : string)
| VInteger (z : Z)          (* a number with [Number.isInteger] *)
| VNonInteger               (* any other number: fraction, NaN, infinity *)
| VFunc (f : Func)
| VTerm (t : term)
| VArray (l : list value)
| VSubstitution (s : Substitution).

(** Induction over terms that reaches the arguments of an application. *)
Section term_induction.
Context (P : term -> Prop).
Hypothesis HVar : forall n, P (Var n).
Hypothesis HConst : forall n, P (Constant n).
Hypothesis HFunc : forall f args, Forall P args -> P (FuncTerm f args).

Fixpoint term_ind' (t : term) : P t :=
  match t with
  | Var n => HVar n
  | Constant n => HConst n
  | FuncTerm f args =>
      HFunc f args
        ((fix go (l : list term) : Forall P l :=
            match l with
            | [] => Forall_nil_2 P
            | x :: l' => Forall_cons_2 P x l' (term_ind' x) (go l')
            end) args)
  end.
End term_induction.

(** ** Constructors *)

Definition new_Variable (name : value) : result term :=
  match name with
  | VString n => Ok (Var n)
  | _ => Throw VariableNameNotString
  end.

Definition new_Constant (name : value) : result term :=
  match name with
  | VString n => Ok (Constant n)
  | _ => Throw ConstantNameNotString
  end.

Definition new_Func (name arity : value) : result Func :=
  match name with
  | VString n =>
      match arity with
      | VInteger a => Ok (mkFunc n a)
      | _ => Throw ArityNotInteger
      end
  | _ => Throw FunctionNameNotString
  end.

Definition isTerm (t : value) : bool :=
  match t with VTerm _ => true | _ => false end.

Definition as_term (t : value) : option term :=
  match t with VTerm t' => Some t' | _ => None end.

Definition new_FuncTerm (func args : value) : result term :=
  match func with
  | VFunc f =>
      match args with
      | VArray l =>
          if forallb isTerm l then Ok (FuncTerm f (omap as_term l))
          else Throw ArgsNotArrayOfTerms
      | _ => Throw ArgsNotArrayOfTerms
      end
  | _ => Throw FirstArgumentNotFunc
  end.

(** [Func.prototype._call]: what [f(...args)] runs. *)
Definition _call (this : Func) (args : list value) : result term :=
  if negb (Z.of_nat (length args) =? arity this)
  then Throw (WrongNumberOfArguments (arity this) (length args))
  else
    f ← new_Func (VString (symbol_name this)) (VInteger (arity this));
    new_FuncTerm (VFunc f) (VArray args).

Definition new_Substitution : Substitution := mkSubstitution [].

(** ** Structural equality *)

Definition Func_isEqual (this : Func) (f : value) : bool :=
  match f with
  | VFunc g => String.eqb (symbol_name g) (symbol_name this) && (arity g =? arity this)
  | _ => false
  end.

(** [a.map((v, i) => [v, b[i]])]; out of range [b[i]] is [undefined]. *)
Definition zip {A} (a : list A) (b : list value) : list (A * value) :=
  imap (fun i v => (v, default VUndefined (b !! i))) a.

(** [x.isEqual(v)], dispatched on the class of the receiver.  The
    [FuncTerm] case is [zip(this.args, t.args).every(...)], written as a
    local recursion on [this.args]; [isEqual_FuncTerm] below gives it in the
    source's form. *)
Fixpoint isEqual (this : term) (v : value) {struct this} : bool :=
  match this with
  | Var n =>
      match v with
      | VTerm (Var m) => String.eqb m n
      | _ => false
      end
  | Constant n =>
      match v with
      | VTerm (Constant m) => String.eqb m n
      | _ => false
      end
  | FuncTerm _ args =>
      match v with
      | VTerm (FuncTerm _ targs) =>
          (fix every (a : list term) (b : list term) {struct a} : bool :=
             match a with
             | [] => true
             | x :: a' =>
                 isEqual x (match b with [] => VUndefined | y :: _ => VTerm y end)
                 && every a' (tail b)
             end) args targs
      | _ => false
      end
  end.

(** ** Rendering *)

Fixpoint toString (t : term) : string :=
  match t with
  | Var n => n
  | Constant n => n
  | FuncTerm f args =>
      if arity f =? 0 then symbol_name f
      else symbol_name f +:+ "(" +:+ String.concat "," (map toString args) +:+ ")"
  end.

Definition Substitution_toString (this : Substitution) : string :=
  let subStrings := map (fun vt => toString vt.1 +:+ " -> " +:+ toString vt.2) (subs this) in
  "{" +:+ String.concat ", " subStrings +:+ "}".

(** ** Equations *)

Record Equation : Type := mkEquation { left_side : term; right_side : term }.

Definition new_Equation (left_side right_side : value) : result Equation :=
  match left_side with
  | VTerm l =>
      match right_side with
      | VTerm r => Ok (mkEquation l r)
      | _ => Throw RightSideNotTerm
      end
  | _ => Throw LeftSideNotTerm
  end.

Definition Equation_toString (this : Equation) : string :=
  toString (left_side this) +:+ " = " +:+ toString (right_side this).

(** ** cloneTerm *)

Fixpoint cloneTerm_of (t : term) : result term :=
  match t with
  | Var n => new_Variable (VString n)
  | Constant n => new_Constant (VString n)
  | FuncTerm f targs =>
      args ← mapR cloneTerm_of targs;
      g ← new_Func (VString (symbol_name f)) (VInteger (arity f));
      new_FuncTerm (VFunc g) (VArray (map VTerm args))
  end.

Definition cloneTerm (t : value) : result term :=
  match t with
  | VTerm t' => cloneTerm_of t'
  | _ => Throw ArgumentNotTerm
  end.

(** ** Substitution primitives *)

Definition add (this : Substitution) (variable term : value) : result Substitution :=
  match variable with
  | VTerm (Var x) =>
      match term with
      | VTerm t =>
          if existsb (fun vt => isEqual vt.1 variable) (subs this)
          then Throw VariableAlreadyExists
          else Ok (mkSubstitution (subs this ++ [(Var x, t)]))
      | _ => Throw SecondArgumentNotTerm
      end
  | _ => Throw FirstArgumentNotVariable
  end.

(** The scan of [remove]: [indexToRemove] ends as the last index whose key
    equals [variable], or stays [-1]. *)
Fixpoint remove_scan (l : list (term * term)) (variable : value) (i : nat)
    (indexToRemove : Z) : Z :=
  match l with
  | [] => indexToRemove
  | vt :: l' =>
      remove_scan l' variable (S i)
        (if isEqual vt.1 variable then Z.of_nat i else indexToRemove)
  end.

Definition remove (this : Substitution) (variable : value) : result Substitution :=
  match variable with
  | VTerm (Var _) =>
      let indexToRemove := remove_scan (subs this) variable 0 (-1) in
      if negb (indexToRemove =? -1)
      then Ok (mkSubstitution (delete (Z.to_nat indexToRemove) (subs this)))
      else Ok this
  | _ => Throw ArgumentNotVariable
  end.

Definition contains (this : Substitution) (variable : value) : result bool :=
  match variable with
  | VTerm (Var _) => Ok (existsb (fun vt => isEqual vt.1 variable) (subs this))
  | _ => Throw ContainsNotVariable
  end.

Fixpoint apply_to (this : Substitution) (t : term) : result term :=
  if (length (subs this) =? 0)%nat then cloneTerm (VTerm t)
  else
    match t with
    | FuncTerm f targs =>
        args ← mapR (apply_to this) targs;
        g ← new_Func (VString (symbol_name f)) (VInteger (arity f));
        new_FuncTerm (VFunc g) (VArray (map VTerm args))
    | Var _ =>
        match find (fun vt => isEqual vt.1 (VTerm t)) (subs this) with
        | Some vt => cloneTerm (VTerm vt.2)
        | None => cloneTerm (VTerm t)
        end
    | Constant _ => cloneTerm (VTerm t)
    end.

Definition apply (this : Substitution) (t : value) : result term :=
  match t with
  | VTerm t' => apply_to this t'
  | _ => Throw ArgumentNotTerm
  end.

Definition cloneSubstitution (sub : value) : result Substitution :=
  match sub with
  | VSubstitution s =>
      foldR (fun newSubstitution vt =>
               v ← cloneTerm (VTerm vt.1);
               t ← cloneTerm (VTerm vt.2);
               add newSubstitution (VTerm v) (VTerm t))
            (subs s) new_Substitution
  | _ => Throw ArgumentNotSubstitution
  end.

(** ** Composition *)

(** First loop of [compose]: every term of [this] rewritten under [sigma]. *)
Definition compose_rewrite (this sigma : Substitution) : result Substitution :=
  foldR (fun newSubstitution vt =>
           v ← cloneTerm (VTerm vt.1);
           t ← apply sigma (VTerm vt.2);
           add newSubstitution (VTerm v) (VTerm t))
        (subs this) new_Substitution.

(** Second loop: drop from the copy of [sigma] the keys of [newSubstitution]. *)
Definition compose_restrict (newSubstitution newSigma : Substitution) : result Substitution :=
  foldR (fun newSigma vt =>
           c ← contains newSigma (VTerm vt.1);
           if c : bool then remove newSigma (VTerm vt.1) else Ok newSigma)
        (subs newSubstitution) newSigma.

(** Third loop: [newSubstitution.subs] is iterated while [remove] splices
    it. *)
Definition compose_trivial (newSubstitution : Substitution) : result Substitution :=
  for_of (length (subs newSubstitution)) subs
         (fun newSubstitution vt =>
            if isEqual vt.1 (VTerm vt.2) then remove newSubstitution (VTerm vt.1)
            else Ok newSubstitution)
         0 newSubstitution.

(** Fourth loop: the union. *)
Definition compose_union (newSubstitution newSigma : Substitution) : result Substitution :=
  foldR (fun newSubstitution vt => add newSubstitution (VTerm vt.1) (VTerm vt.2))
        (subs newSigma) newSubstitution.

Definition compose (this : Substitution) (sigma : value) : result Substitution :=
  match sigma with
  | VSubstitution sg =>
      if (length (subs this) =? 0)%nat then cloneSubstitution sigma
      else
        newSubstitution ← compose_rewrite this sg;
        newSigma ← cloneSubstitution sigma;
        newSigma ← compose_restrict newSubstitution newSigma;
        newSubstitution ← compose_trivial newSubstitution;
        compose_union newSubstitution newSigma
  | _ => Throw ArgumentNotSubstitution
  end.

(** ** Derived notions used to state the properties *)

#[global] Instance Func_eq_dec : EqDecision Func.
Proof. solve_decision. Defined.

#[global] Instance term_eq_dec : EqDecision term.
Proof.
  refine (fix go (t1 t2 : term) {struct t1} : Decision (t1 = t2) :=
            let _ : EqDecision term := @go in
            match t1, t2 with
            | Var x, Var y => cast_if (decide (x = y))
            | Constant x, Constant y => cast_if (decide (x = y))
            | FuncTerm f a, FuncTerm g b =>
                cast_if_and (decide (f = g)) (decide (a = b))
            | _, _ => right _
            end); congruence.
Defined.

Definition is_Var (t : term) : bool :=
  match t with Var _ => true | _ => false end.

(** The invariant [add] maintains: every key is a [Variable] and no two keys
    are equal. *)
Fixpoint valid_subs (l : list (term * term)) : bool :=
  match l with
  | [] => true
  | vt :: l' =>
      is_Var vt.1
      && negb (existsb (fun wt => isEqual wt.1 (VTerm vt.1)) l')
      && valid_subs l'
  end.

Definition valid (s : Substitution) : bool := valid_subs (subs s).

(** Substitutions as the public interface builds them. *)
Inductive built : Substitution -> Prop :=
| built_new : built new_Substitution
| built_add s v t s' : built s -> add s v t = Ok s' -> built s'
| built_remove s v s' : built s -> remove s v = Ok s' -> built s'.

(** [v.isEqual(t)] for a pair of a substitution. *)
Definition trivial (vt : term * term) : bool := isEqual vt.1 (VTerm vt.2).

(** What [apply] computes, as a function on terms. *)
Fixpoint subst (sigma : list (term * term)) (t : term) : term :=
  match t with
  | Var _ =>
      match find (fun vt => isEqual vt.1 (VTerm t)) sigma with
      | Some vt => vt.2
      | None => t
      end
  | Constant _ => t
  | FuncTerm f targs => FuncTerm f (map (subst sigma) targs)
  end.

(** What the third loop of [compose] leaves of its array: after a trivial
    pair is spliced out, the pair that slides into its place is stepped
    over. *)
Fixpoint trivial_pass (l : list (term * term)) : list (term * term) :=
  match l with
  | [] => []
  | vt :: l' =>
      if trivial vt then
        match l' with
        | [] => []
        | wt :: l'' => wt :: trivial_pass l''
        end
      else vt :: trivial_pass l'
  end.

(** No two trivial pairs next to each other. *)
Fixpoint no_adjacent_trivial (l : list (term * term)) : bool :=
  match l with
  | [] => true
  | vt :: l' =>
      negb (trivial vt && match l' with [] => false | wt :: _ => trivial wt end)
      && no_adjacent_trivial l'
  end.

(** Depth of a term. *)
Fixpoint height (t : term) : nat :=
  match t with
  | FuncTerm _ targs => S (max_list (map height targs))
  | _ => 1%nat
  end.

Definition pairs_height (l : list (term * term)) : nat :=
  max_list (map (fun vt => Nat.max (height vt.1) (height vt.2)) l).

(** The array the first loop of [compose] builds from valid operands. *)
Definition rewritten (this sigma : Substitution) : list (term * term) :=
  map (fun vt => (vt.1, subst (subs sigma) vt.2)) (subs this).

(** What [compose] returns on valid operands ([compose_valid]). *)
Definition composed (this sigma : Substitution) : Substitution :=
  mkSubstitution
    (trivial_pass (rewritten this sigma)
     ++ filter (fun vt => vt.1 ∉ (subs this).*1) (subs sigma)).

(** ** The published example *)

Definition published_example : result (string * string) :=
  f ← new_Func (VString "f") (VInteger 1);
  g ← new_Func (VString "g") (VInteger 2);
  x ← new_Variable (VString "x");
  y ← new_Variable (VString "y");
  a ← new_Constant (VString "a");
  b ← new_Constant (VString "b");
  c ← new_Constant (VString "c");
  gyc ← _call g [VTerm y; VTerm c];
  sigma1 ← add new_Substitution (VTerm x) (VTerm gyc);
  sigma2 ← add new_Substitution (VTerm y) (VTerm a);
  sigma3 ← compose sigma1 (VSubstitution sigma2);
  fx ← _call f [VTerm x];
  t ← apply sigma3 (VTerm fx);
  Ok (Substitution_toString sigma3, toString t).

(** * The object store

    The same functions on a store of objects, with allocation and in-place
    update.  A location is an index in the store; [new] appends.  A
    [FuncTerm] object points to its arguments; its [Func] and its [args]
    array are stored in it, since every [new FuncTerm(...)] of the source
    is given a [new Func(...)] and an array made on the spot ([map], rest
    parameters).  A [Substitution] object stores its [subs] array of pairs of
    pointers; [push] and [splice] update the object in place. *)
Module Heap.

Local Open Scope nat_scope.

Abbreviation loc := nat.

Inductive obj : Type :=
| OVariable (name : string)
| OConstant (name : string)
| OFuncTerm (func : Func) (args : list loc)
| OSubstitution (subs : list (loc * loc)).

Abbreviation heap := (list obj).

(** Computations that read and update the store and may throw. *)
Definition M (A : Type) : Type := heap -> result (A * heap).

#[global] Instance M_ret : MRet M := fun A a h => Ok (a, h).
#[global] Instance M_bind : MBind M := fun A B f m h =>
  match m h with
  | Ok (a, h') => f a h'
  | Throw e => Throw e
  end.

Definition throw {A} (e : error) : M A := fun _ => Throw e.
Definition liftR {A} (r : result A) : M A := fun h =>
  match r with Ok a => Ok (a, h) | Throw e => Throw e end.
Definition alloc (o : obj) : M loc := fun h => Ok (length h, h ++ [o]).

Definition is_term_obj (o : obj) : bool :=
  match o with OSubstitution _ => false | _ => true end.

Definition isTerm (h : heap) (t : loc) : bool :=
  match h !! t with Some o => is_term_obj o | None => false end.

(** [for (const [v, t] of arr.subs) body]: the iterator reads the array of
    the object at [arr] afresh at every step. *)
Fixpoint for_of_from (budget : nat) (arr : loc) (body : loc * loc -> M unit) (i : nat)
    : M unit := fun h =>
  match h !! arr with
  | Some (OSubstitution subs) =>
      match subs !! i with
      | None => Ok (tt, h)
      | Some vt =>
          match budget with
          | O => Throw BudgetExhausted
          | S budget' => (body vt;; for_of_from budget' arr body (S i)) h
          end
      end
  | _ => Throw TypeError
  end.

Definition for_of (arr : loc) (body : loc * loc -> M unit) : M unit := fun h =>
  match h !! arr with
  | Some (OSubstitution subs) => for_of_from (length subs) arr body 0 h
  | _ => Throw TypeError
  end.

(** [this.isEqual(v)]; [v = None] is [undefined].  Reads only. *)
Fixpoint isEqual (d : nat) (h : heap) (this : loc) (v : option loc) : result bool :=
  match d with
  | O => Throw BudgetExhausted
  | S d' =>
      match h !! this with
      | Some (OVariable n) =>
          Ok (match v ≫= (h !!.) with
              | Some (OVariable m) => String.eqb m n
              | _ => false
              end)
      | Some (OConstant n) =>
          Ok (match v ≫= (h !!.) with
              | Some (OConstant m) => String.eqb m n
              | _ => false
              end)
      | Some (OFuncTerm _ args) =>
          match v ≫= (h !!.) with
          | Some (OFuncTerm _ targs) =>
              (fix every (a : list loc) (b : list loc) {struct a} : result bool :=
                 match a with
                 | [] => Ok true
                 | x :: a' =>
                     match isEqual d' h x (head b) with
                     | Ok true => every a' (tail b)
                     | r => r
                     end
                 end) args targs
          | _ => Ok false
          end
      | _ => Throw TypeError
      end
  end.

Definition new_FuncTerm (func : Func) (args : list loc) : M loc := fun h =>
  if forallb (isTerm h) args then alloc (OFuncTerm func args) h
  else Throw ArgsNotArrayOfTerms.

Fixpoint cloneTerm (d : nat) (t : loc) : M loc :=
  match d with
  | O => throw BudgetExhausted
  | S d' => fun h =>
      match h !! t with
      | Some (OVariable n) => alloc (OVariable n) h
      | Some (OConstant n) => alloc (OConstant n) h
      | Some (OFuncTerm f targs) =>
          (args ← mapM (cloneTerm d') targs;
           g ← liftR (new_Func (VString (symbol_name f)) (VInteger (arity f)));
           new_FuncTerm g args) h
      | _ => Throw ArgumentNotTerm
      end
  end.

(** [subs.some(vt => vt[0].isEqual(variable))] *)
Fixpoint some_isEqual (d : nat) (h : heap) (subs : list (loc * loc)) (variable : loc)
    : result bool :=
  match subs with
  | [] => Ok false
  | vt :: subs' =>
      match isEqual d h vt.1 (Some variable) with
      | Ok true => Ok true
      | Ok false => some_isEqual d h subs' variable
      | Throw e => Throw e
      end
  end.

Definition is_Variable (h : heap) (l : loc) : bool :=
  match h !! l with Some (OVariable _) => true | _ => false end.

Definition add (d : nat) (this variable term : loc) : M unit := fun h =>
  if negb (is_Variable h variable) then Throw FirstArgumentNotVariable
  else if negb (isTerm h term) then Throw SecondArgumentNotTerm
  else
    match h !! this with
    | Some (OSubstitution subs) =>
        match some_isEqual d h subs variable with
        | Ok true => Throw VariableAlreadyExists
        | Ok false => Ok (tt, <[this := OSubstitution (subs ++ [(variable, term)])]> h)
        | Throw e => Throw e
        end
    | _ => Throw TypeError
    end.

Fixpoint remove_scan (d : nat) (h : heap) (subs : list (loc * loc)) (variable : loc)
    (i : nat) (indexToRemove : Z) : result Z :=
  match subs with
  | [] => Ok indexToRemove
  | vt :: subs' =>
      match isEqual d h vt.1 (Some variable) with
      | Ok b => remove_scan d h subs' variable (S i)
                  (if b then Z.of_nat i else indexToRemove)
      | Throw e => Throw e
      end
  end.

Definition remove (d : nat) (this variable : loc) : M unit := fun h =>
  if negb (is_Variable h variable) then Throw ArgumentNotVariable
  else
    match h !! this with
    | Some (OSubstitution subs) =>
        match remove_scan d h subs variable 0 (-1)%Z with
        | Ok indexToRemove =>
            if negb (indexToRemove =? -1)%Z
            then Ok (tt, <[this := OSubstitution (delete (Z.to_nat indexToRemove) subs)]> h)
            else Ok (tt, h)
        | Throw e => Throw e
        end
    | _ => Throw TypeError
    end.

Definition contains (d : nat) (this variable : loc) : M bool := fun h =>
  if negb (is_Variable h variable) then Throw ContainsNotVariable
  else
    match h !! this with
    | Some (OSubstitution subs) =>
        match some_isEqual d h subs variable with
        | Ok b => Ok (b, h)
        | Throw e => Throw e
        end
    | _ => Throw TypeError
    end.

(** The loop of [apply] on a variable: the first pair whose key equals
    [t]. *)
Fixpoint find_isEqual (d : nat) (h : heap) (subs : list (loc * loc)) (t : loc)
    : result (option (loc * loc)) :=
  match subs with
  | [] => Ok None
  | vt :: subs' =>
      match isEqual d h vt.1 (Some t) with
      | Ok true => Ok (Some vt)
      | Ok false => find_isEqual d h subs' t
      | Throw e => Throw e
      end
  end.

Fixpoint apply (d : nat) (this t : loc) : M loc :=
  match d with
  | O => throw BudgetExhausted
  | S d' => fun h =>
      if negb (isTerm h t) then Throw ArgumentNotTerm
      else
        match h !! this with
        | Some (OSubstitution subs) =>
            if (length subs =? 0) then cloneTerm d t h
            else
              match h !! t with
              | Some (OFuncTerm f targs) =>
                  (args ← mapM (apply d' this) targs;
                   g ← liftR (new_Func (VString (symbol_name f)) (VInteger (arity f)));
                   new_FuncTerm g args) h
              | Some (OVariable _) =>
                  match find_isEqual d h subs t with
                  | Ok (Some vt) => cloneTerm d vt.2 h
                  | Ok None => cloneTerm d t h
                  | Throw e => Throw e
                  end
              | _ => cloneTerm d t h
              end
        | _ => Throw TypeError
        end
  end.

Definition is_Substitution (h : heap) (l : loc) : bool :=
  match h !! l with Some (OSubstitution _) => true | _ => false end.

Definition cloneSubstitution (d : nat) (sub : loc) : M loc := fun h =>
  if negb (is_Substitution h sub) then Throw ArgumentNotSubstitution
  else
    (newSubstitution ← alloc (OSubstitution []);
     for_of sub (fun vt =>
                   v ← cloneTerm d vt.1;
                   t ← cloneTerm d vt.2;
                   add d newSubstitution v t);;
     mret newSubstitution) h.

Definition compose (d : nat) (this sigma : loc) : M loc := fun h =>
  if negb (is_Substitution h sigma) then Throw ArgumentNotSubstitution
  else
    match h !! this with
    | Some (OSubstitution subs) =>
        if (length subs =? 0) then cloneSubstitution d sigma h
        else
          (newSubstitution ← alloc (OSubstitution []);
           for_of this (fun vt =>
                          v ← cloneTerm d vt.1;
                          t ← apply d sigma vt.2;
                          add d newSubstitution v t);;
           newSigma ← cloneSubstitution d sigma;
           for_of newSubstitution (fun vt =>
                                     c ← contains d newSigma vt.1;
                                     if c : bool then remove d newSigma vt.1
                                     else mret tt);;
           for_of newSubstitution (fun vt => fun h' =>
                                     match isEqual d h' vt.1 (Some vt.2) with
                                     | Ok true => remove d newSubstitution vt.1 h'
                                     | Ok false => Ok (tt, h')
                                     | Throw e => Throw e
                                     end);;
           for_of newSigma (fun vt => add d newSubstitution vt.1 vt.2);;
           mret newSubstitution) h
    | _ => Throw TypeError
    end.

(** Reading a term out of the store: [read_from n d h l] is the term at
    [l], provided it is at most [d] deep and every object of it lies at or
    after [n]. *)
Fixpoint read_from (n : loc) (d : nat) (h : heap) (l : loc) : option term :=
  match d with
  | O => None
  | S d' =>
      if (l <? n) then None
      else
        match h !! l with
        | Some (OVariable x) => Some (Var x)
        | Some (OConstant c) => Some (Constant c)
        | Some (OFuncTerm f args) =>
            FuncTerm f <$> mapM (read_from n d' h) args
        | _ => None
        end
  end.

Definition read_pair (n : loc) (d : nat) (h : heap) (p : loc * loc) : option (term * term) :=
  v ← read_from n d h p.1; t ← read_from n d h p.2; Some (v, t).

Definition read_subst (n : loc) (d : nat) (h : heap) (s : loc) : option Substitution :=
  match h !! s with
  | Some (OSubstitution subs) =>
      if (s <? n) then None
      else mkSubstitution <$> mapM (read_pair n d h) subs
  | _ => None
  end.

(** [repr n h l t]: the objects reachable from [l] form the term [t], and
    all of them lie at or after [n]. *)
Inductive repr (n : loc) (h : heap) : loc -> term -> Prop :=
| repr_Var l x :
    n <= l -> h !! l = Some (OVariable x) -> repr n h l (Var x)
| repr_Constant l c :
    n <= l -> h !! l = Some (OConstant c) -> repr n h l (Constant c)
| repr_FuncTerm l f args ts :
    n <= l -> h !! l = Some (OFuncTerm f args) ->
    Forall2 (repr n h) args ts -> repr n h l (FuncTerm f ts).

Definition repr_pair (n : loc) (h : heap) (p : loc * loc) (vt : term * term) : Prop :=
  repr n h p.1 vt.1 /\ repr n h p.2 vt.2.

(** The object at [s] is a substitution whose pairs form [sigma]. *)
Definition repr_subst (n : loc) (h : heap) (s : loc) (sigma : list (term * term)) : Prop :=
  exists ps, h !! s = Some (OSubstitution ps) /\ Forall2 (repr_pair n h) ps sigma.

(** A JavaScript argument: [undefined] or a pointer to a term. *)
Definition repr_value (h : heap) (v : option loc) (vv : value) : Prop :=
  match v with
  | None => vv = VUndefined
  | Some l => exists t, repr 0 h l t /\ vv = VTerm t
  end.

(** [m], run on [h], only appends term objects and returns a pointer to a
    term [t] made of appended objects. *)
Definition allocs (m : M loc) (h : heap) (t : term) : Prop :=
  exists r k, m h = Ok (r, h ++ k)
              /\ Forall (fun o => is_term_obj o = true) k
              /\ repr (length h) (h ++ k) r t.

(** Term objects are never updated, and objects before [n] are not
    either. *)
Definition keeps (n : loc) (h h' : heap) : Prop :=
  length h <= length h' /\
  forall l o, h !! l = Some o -> (l < n \/ is_term_obj o = true) -> h' !! l = Some o.

End Heap.

(** The store of the published example: [x], [y], [a], [c], [g(y,c)],
    [sigma1 = {x -> g(y,c)}] at 5 and [sigma2 = {y -> a}] at 6. *)
Definition example_store : list Heap.obj :=
  [Heap.OVariable "x"; Heap.OVariable "y"; Heap.OConstant "a"; Heap.OConstant "c";
   Heap.OFuncTerm (mkFunc "g" 2) [1%nat; 3%nat];
   Heap.OSubstitution [(0%nat, 4%nat)];
   Heap.OSubstitution [(1%nat, 2%nat)]].

(** ** Notions used to state further properties *)

(** The names of the variables occurring in a term. *)
Fixpoint vars (t : term) : list string :=
  match t with
  | Var x => [x]
  | Constant _ => []
  | FuncTerm _ targs => flat_map vars targs
  end.

(** Every application in the term has as many arguments as the arity of its
    symbol. *)
Fixpoint well_formed (t : term) : bool :=
  match t with
  | FuncTerm f targs => (Z.of_nat (length targs) =? arity f) && forallb well_formed targs
  | _ => true
  end.

(** ** Basic facts *)

Lemma bind_Ok {A B} (a : A) (f : A -> result B) : (Ok a ≫= f) = f a.
Proof. reflexivity. Qed.

Lemma mapR_Ok {A B} (f : A -> result B) (g : A -> B) (l : list A) :
  Forall (fun x => f x = Ok (g x)) l -> mapR f l = Ok (map g l).
Proof.
  induction 1 as [|x l Hx _ IH]; simpl; [done|].
  by rewrite Hx, IH.
Qed.

Lemma Func_eta (f : Func) : mkFunc (symbol_name f) (arity f) = f.
Proof. by destruct f. Qed.

Lemma forallb_isTerm_VTerm (l : list term) : forallb isTerm (map VTerm l) = true.
Proof. induction l; simpl; auto. Qed.

Lemma omap_as_term_VTerm (l : list term) : omap as_term (map VTerm l) = l.
Proof. induction l; simpl; [done|]. by f_equal. Qed.

Lemma new_FuncTerm_terms (f : Func) (l : list term) :
  new_FuncTerm (VFunc f) (VArray (map VTerm l)) = Ok (FuncTerm f l).
Proof.
  unfold new_FuncTerm. by rewrite forallb_isTerm_VTerm, omap_as_term_VTerm.
Qed.

Lemma new_Func_fields (f : Func) :
  new_Func (VString (symbol_name f)) (VInteger (arity f)) = Ok f.
Proof. by destruct f. Qed.

Lemma cloneTerm_of_id (t : term) : cloneTerm_of t = Ok t.
Proof.
  induction t as [n|n|f targs IH] using term_ind'; try done.
  cbn [cloneTerm_of].
  rewrite (mapR_Ok _ id), map_id, bind_Ok by done.
  by rewrite new_Func_fields, bind_Ok, new_FuncTerm_terms.
Qed.

Lemma cloneTerm_id (t : term) : cloneTerm (VTerm t) = Ok t.
Proof. apply cloneTerm_of_id. Qed.

Lemma subst_nil (t : term) : subst [] t = t.
Proof.
  induction t as [n|n|f targs IH] using term_ind'; simpl; try done.
  f_equal. induction IH as [|x l Hx _ IHl]; simpl; [done|]. by rewrite Hx, IHl.
Qed.

Lemma apply_to_subst (s : Substitution) (t : term) :
  apply_to s t = Ok (subst (subs s) t).
Proof.
  destruct (length (subs s) =? 0)%nat eqn:Hlen.
  { apply Nat.eqb_eq, nil_length_inv in Hlen. rewrite Hlen, subst_nil.
    destruct t; cbn [apply_to]; rewrite Hlen; apply cloneTerm_of_id. }
  induction t as [n|n|f targs IH] using term_ind'; cbn [apply_to]; rewrite Hlen.
  - cbn [subst]. destruct (find _ (subs s)); apply cloneTerm_id.
  - apply cloneTerm_id.
  - rewrite (mapR_Ok _ (subst (subs s))), bind_Ok by done.
    by rewrite new_Func_fields, bind_Ok, new_FuncTerm_terms.
Qed.

Lemma apply_subst (s : Substitution) (t : term) :
  apply s (VTerm t) = Ok (subst (subs s) t).
Proof. apply apply_to_subst. Qed.

(** ** Keys of a substitution *)

Lemma isEqual_Var_r (k : term) (x : string) :
  isEqual k (VTerm (Var x)) = true <-> k = Var x.
Proof.
  destruct k as [n|n|f a]; simpl; [|done..].
  rewrite String.eqb_eq. split; congruence.
Qed.

Lemma isEqual_Var_l (x : string) (t : term) :
  isEqual (Var x) (VTerm t) = true <-> t = Var x.
Proof.
  destruct t as [n|n|f a]; simpl; [|done..].
  rewrite String.eqb_eq. split; congruence.
Qed.

Lemma is_Var_true (t : term) : is_Var t = true <-> exists x, t = Var x.
Proof. destruct t; simpl; naive_solver. Qed.

Lemma bound_iff (l : list (term * term)) (x : string) :
  existsb (fun vt => isEqual vt.1 (VTerm (Var x))) l = true <-> Var x ∈ l.*1.
Proof.
  induction l as [|vt l IH]; simpl.
  - rewrite elem_of_nil. split; [discriminate | done].
  - rewrite orb_true_iff, isEqual_Var_r, IH, elem_of_cons. naive_solver.
Qed.

Lemma bound_false_iff (l : list (term * term)) (x : string) :
  existsb (fun vt => isEqual vt.1 (VTerm (Var x))) l = false <-> Var x ∉ l.*1.
Proof. rewrite <-bound_iff. by destruct (existsb _ l). Qed.

Lemma valid_subs_iff (l : list (term * term)) :
  valid_subs l = true <-> Forall (fun vt => is_Var vt.1 = true) l /\ NoDup l.*1.
Proof.
  induction l as [|vt l IH]; simpl.
  - split; [intros _; split; constructor | done].
  - rewrite !andb_true_iff, negb_true_iff, IH, Forall_cons, NoDup_cons.
    split.
    + intros [[Hv Hx] [HF HN]]. apply is_Var_true in Hv as Hv'. destruct Hv' as [x Hvx].
      rewrite Hvx in Hx. apply bound_false_iff in Hx. rewrite <-Hvx in Hx. done.
    + intros [[Hv HF] [Hx HN]]. apply is_Var_true in Hv as Hv'. destruct Hv' as [x Hvx].
      rewrite Hvx in Hx |- *. by rewrite bound_false_iff.
Qed.

Lemma valid_subs_app_inv (l1 l2 : list (term * term)) :
  valid_subs (l1 ++ l2) = true -> valid_subs l1 = true /\ valid_subs l2 = true.
Proof.
  rewrite !valid_subs_iff, Forall_app, fmap_app, NoDup_app. naive_solver.
Qed.

(** ** add *)

Lemma add_fresh (s : Substitution) (x : string) (t : term) :
  Var x ∉ (subs s).*1 ->
  add s (VTerm (Var x)) (VTerm t) = Ok (mkSubstitution (subs s ++ [(Var x, t)])).
Proof. intros H. unfold add. apply bound_false_iff in H. by rewrite H. Qed.

Lemma add_bound (s : Substitution) (x : string) (t : term) :
  Var x ∈ (subs s).*1 ->
  add s (VTerm (Var x)) (VTerm t) = Throw VariableAlreadyExists.
Proof. intros H. unfold add. apply bound_iff in H. by rewrite H. Qed.

Lemma add_Ok_inv (s s' : Substitution) (v t : value) :
  add s v t = Ok s' ->
  exists x t', v = VTerm (Var x) /\ t = VTerm t' /\ (Var x ∉ (subs s).*1)
               /\ s' = mkSubstitution (subs s ++ [(Var x, t')]).
Proof.
  unfold add. destruct v as [| | | | |[x| |]| |]; try done.
  destruct t as [| | | | |t'| |]; try done.
  destruct (existsb _ _) eqn:Hb; [done|]. intros [= <-].
  exists x, t'. by rewrite <-bound_false_iff.
Qed.

Lemma add_valid (s s' : Substitution) (v t : value) :
  valid s = true -> add s v t = Ok s' -> valid s' = true.
Proof.
  intros Hs (x & t' & -> & -> & Hx & ->)%add_Ok_inv. unfold valid in *. simpl.
  apply valid_subs_iff in Hs as [HF HN]. apply valid_subs_iff.
  rewrite Forall_app, fmap_app, NoDup_app. simpl.
  repeat split; auto.
  - intros k Hk Hk'. apply list_elem_of_singleton in Hk'. by subst.
  - apply NoDup_singleton.
Qed.

(** The union loop and the copy loops are a run of [add]s. *)
Lemma foldR_add (l acc : list (term * term)) :
  valid_subs (acc ++ l) = true ->
  foldR (fun a vt => add a (VTerm vt.1) (VTerm vt.2)) l (mkSubstitution acc)
  = Ok (mkSubstitution (acc ++ l)).
Proof.
  revert acc. induction l as [|[v t] l IH]; intros acc Hv; cbn [foldR fst snd].
  - by rewrite app_nil_r.
  - assert (Hv' : valid_subs ((acc ++ [(v, t)]) ++ l) = true) by by rewrite <-app_assoc.
    apply valid_subs_app_inv in Hv' as Hacc. destruct Hacc as [Hacc _].
    apply valid_subs_iff in Hacc as [HF HN].
    apply Forall_app in HF as [_ HF]. rewrite Forall_singleton in HF. simpl in HF.
    apply is_Var_true in HF as [x ->].
    rewrite fmap_app in HN. apply NoDup_app in HN as (_ & HN & _).
    rewrite add_fresh; cbn [subs].
    + rewrite bind_Ok, IH by done. by rewrite <-app_assoc.
    + intros Hin. apply (HN _ Hin). simpl. apply list_elem_of_singleton. done.
Qed.

Lemma foldR_ext {A St} (f g : St -> A -> result St) (l : list A) (st : St) :
  (forall a x, x ∈ l -> f a x = g a x) -> foldR f l st = foldR g l st.
Proof.
  revert st. induction l as [|x l IH]; intros st H; simpl; [done|].
  rewrite H by apply list_elem_of_here. destruct (g st x); [|done].
  rewrite !bind_Ok. apply IH. intros. apply H. by apply list_elem_of_further.
Qed.

Lemma foldR_map {A B St} (h : A -> B) (g : St -> B -> result St) (l : list A) (st : St) :
  foldR (fun a x => g a (h x)) l st = foldR g (map h l) st.
Proof.
  revert st. induction l as [|x l IH]; intros st; simpl; [done|].
  destruct (g st (h x)); [|done]. rewrite !bind_Ok. apply IH.
Qed.

(** ** remove *)

Lemma remove_scan_absent (l : list (term * term)) (x : string) (i : nat) (idx : Z) :
  Var x ∉ l.*1 -> remove_scan l (VTerm (Var x)) i idx = idx.
Proof.
  revert i idx. induction l as [|vt l IH]; intros i idx Hx; simpl; [done|].
  rewrite fmap_cons, not_elem_of_cons in Hx. destruct Hx as [Hne Hx].
  destruct (isEqual vt.1 (VTerm (Var x))) eqn:He.
  - apply isEqual_Var_r in He. congruence.
  - by apply IH.
Qed.

Lemma remove_scan_app (l1 l2 : list (term * term)) (v : value) (i : nat) (idx : Z) :
  remove_scan (l1 ++ l2) v i idx
  = remove_scan l2 v (i + length l1) (remove_scan l1 v i idx).
Proof.
  revert i idx. induction l1 as [|vt l1 IH]; intros i idx; simpl.
  - by rewrite Nat.add_0_r.
  - rewrite IH. f_equal. lia.
Qed.

Lemma remove_scan_last (l1 l2 : list (term * term)) (x : string) (t : term) :
  Var x ∉ l2.*1 ->
  remove_scan (l1 ++ (Var x, t) :: l2) (VTerm (Var x)) 0 (-1) = Z.of_nat (length l1).
Proof.
  intros Hx. rewrite remove_scan_app. cbn [remove_scan fst].
  assert (He : isEqual (Var x) (VTerm (Var x)) = true) by by apply isEqual_Var_r.
  by rewrite He, remove_scan_absent.
Qed.

Lemma remove_absent (s : Substitution) (x : string) :
  Var x ∉ (subs s).*1 -> remove s (VTerm (Var x)) = Ok s.
Proof. intros Hx. unfold remove. by rewrite remove_scan_absent. Qed.

(** [remove] splices out the last pair whose key equals the variable. *)
Lemma remove_last (l1 l2 : list (term * term)) (x : string) (t : term) :
  Var x ∉ l2.*1 ->
  remove (mkSubstitution (l1 ++ (Var x, t) :: l2)) (VTerm (Var x))
  = Ok (mkSubstitution (l1 ++ l2)).
Proof.
  intros Hx. unfold remove. cbn [subs].
  rewrite remove_scan_app. cbn [remove_scan fst].
  assert (He : isEqual (Var x) (VTerm (Var x)) = true) by by apply isEqual_Var_r.
  rewrite He, remove_scan_absent by done.
  replace (Z.of_nat (0 + length l1) =? -1) with false by (symmetry; apply Z.eqb_neq; lia).
  cbn [negb]. rewrite Nat2Z.id. simpl. by rewrite delete_middle.
Qed.

Lemma filter_ne_absent (l : list (term * term)) (k : term) :
  k ∉ l.*1 -> filter (fun vt => vt.1 ≠ k) l = l.
Proof.
  induction l as [|vt l IH]; intros Hk; [done|].
  rewrite fmap_cons, not_elem_of_cons in Hk. destruct Hk as [Hne Hk].
  rewrite filter_cons_True by done. by rewrite IH.
Qed.

Lemma remove_filter (l : list (term * term)) (x : string) :
  NoDup l.*1 ->
  remove (mkSubstitution l) (VTerm (Var x))
  = Ok (mkSubstitution (filter (fun vt => vt.1 ≠ Var x) l)).
Proof.
  intros HN. destruct (decide (Var x ∈ l.*1)) as [Hin|Hout].
  - apply list_elem_of_fmap in Hin as ([v t] & Hv & Hin). simpl in Hv. subst v.
    apply list_elem_of_split in Hin as (l1 & l2 & ->).
    rewrite fmap_app, fmap_cons in HN. apply NoDup_app in HN as (_ & H1 & HN).
    apply NoDup_cons in HN as [H2 _]. simpl in H1, H2.
    rewrite remove_last by done.
    rewrite filter_app, filter_cons_False by (simpl; tauto).
    rewrite !filter_ne_absent; [done..|].
    intros Hin. apply (H1 _ Hin), list_elem_of_here.
  - rewrite remove_absent by done. by rewrite filter_ne_absent.
Qed.

Lemma remove_valid (s s' : Substitution) (v : value) :
  valid s = true -> remove s v = Ok s' -> valid s' = true.
Proof.
  destruct s as [l]. unfold valid. cbn [subs]. intros Hs Hr.
  apply valid_subs_iff in Hs as [HF HN].
  destruct v as [| | | | |[x| |]| |]; try done.
  rewrite remove_filter in Hr by done. injection Hr as <-. cbn [subs].
  apply valid_subs_iff. split.
  - rewrite Forall_forall in HF. apply Forall_forall.
    intros vt [_ Hin]%list_elem_of_filter. by apply HF.
  - eapply sublist_NoDup; [done|]. apply fmap_sublist, sublist_filter.
Qed.

(** Reachable substitutions are exactly the valid ones. *)
Lemma built_valid (s : Substitution) : built s -> valid s = true.
Proof. induction 1; eauto using add_valid, remove_valid. Qed.

Lemma valid_built (s : Substitution) : valid s = true -> built s.
Proof.
  destruct s as [l]. unfold valid. cbn [subs].
  induction l as [|[v t] l IH] using rev_ind; intros Hv; [apply built_new|].
  apply valid_subs_app_inv in Hv as Hl. destruct Hl as [Hl _].
  apply (built_add (mkSubstitution l) (VTerm v) (VTerm t)); [auto|].
  apply valid_subs_iff in Hv as [HF HN].
  apply Forall_app in HF as [_ HF]. rewrite Forall_singleton in HF. simpl in HF.
  apply is_Var_true in HF as [x ->].
  rewrite add_fresh; [done|]. cbn [subs].
  rewrite fmap_app in HN. apply NoDup_app in HN as (_ & HN & _).
  intros Hin. apply (HN _ Hin), list_elem_of_here.
Qed.

(** ** The loops of compose *)

Lemma cloneSubstitution_valid (s : Substitution) :
  valid s = true -> cloneSubstitution (VSubstitution s) = Ok s.
Proof.
  destruct s as [l]. unfold valid. cbn [subs]. intros Hv. unfold cloneSubstitution.
  rewrite (foldR_ext _ (fun a vt => add a (VTerm vt.1) (VTerm vt.2))).
  - by apply (foldR_add l []).
  - intros a vt _. by rewrite !cloneTerm_id, !bind_Ok.
Qed.

Lemma rewritten_keys (this sigma : Substitution) :
  (rewritten this sigma).*1 = (subs this).*1.
Proof.
  unfold rewritten. induction (subs this) as [|vt l IH]; simpl; [done|]. by f_equal.
Qed.

Lemma valid_subs_keys (l k : list (term * term)) :
  l.*1 = k.*1 -> valid_subs l = valid_subs k.
Proof.
  revert k. induction l as [|[v t] l IH]; intros [|[w u] k] Hk; try done.
  injection Hk as Hvw Hk. simpl in Hvw. subst w.
  cbn [valid_subs fst]. rewrite (IH k Hk). do 3 f_equal.
  clear IH. revert k Hk. induction l as [|p l IHl]; intros [|q k] Hk; try done.
  injection Hk as Hpq Hk. simpl. by rewrite Hpq, (IHl k Hk).
Qed.

Lemma compose_rewrite_valid (this sigma : Substitution) :
  valid this = true ->
  compose_rewrite this sigma = Ok (mkSubstitution (rewritten this sigma)).
Proof.
  intros Hv. unfold compose_rewrite.
  rewrite (foldR_ext _ (fun a vt =>
            add a (VTerm (vt.1, subst (subs sigma) vt.2).1)
                  (VTerm (vt.1, subst (subs sigma) vt.2).2))).
  - rewrite (foldR_map (fun vt => (vt.1, subst (subs sigma) vt.2))
               (fun a vt => add a (VTerm vt.1) (VTerm vt.2))).
    apply (foldR_add _ []). simpl.
    erewrite valid_subs_keys; [exact Hv|]. apply rewritten_keys.
  - intros a vt _. by rewrite cloneTerm_id, apply_subst, !bind_Ok.
Qed.

Lemma compose_restrict_valid (R S0 : list (term * term)) :
  Forall (fun vt => is_Var vt.1 = true) R -> NoDup S0.*1 ->
  compose_restrict (mkSubstitution R) (mkSubstitution S0)
  = Ok (mkSubstitution (filter (fun vt => vt.1 ∉ R.*1) S0)).
Proof.
  unfold compose_restrict. cbn [subs]. intros HF. revert S0.
  induction HF as [|[v t] R Hv HF IH]; intros S0 HN; cbn [foldR].
  - f_equal. f_equal. symmetry. clear. induction S0 as [|p l IH]; [done|].
    rewrite filter_cons_True; [by rewrite IH|]. simpl. apply not_elem_of_nil.
  - simpl in Hv. apply is_Var_true in Hv as [x ->]. cbn [fst contains subs].
    rewrite bind_Ok.
    assert (Hrem : (if existsb (fun vt => isEqual vt.1 (VTerm (Var x))) S0
                    then remove (mkSubstitution S0) (VTerm (Var x))
                    else Ok (mkSubstitution S0))
                   = Ok (mkSubstitution (filter (fun vt => vt.1 ≠ Var x) S0))).
    { destruct (existsb _ S0) eqn:Hb; [by apply remove_filter|].
      apply bound_false_iff in Hb. by rewrite filter_ne_absent. }
    rewrite Hrem, bind_Ok, IH.
    + do 2 f_equal. rewrite list_filter_filter. apply list_filter_iff.
      intros [w u]. simpl. rewrite not_elem_of_cons. tauto.
    + eapply sublist_NoDup; [done|]. apply fmap_sublist, sublist_filter.
Qed.

Lemma valid_subs_sublist (l k : list (term * term)) :
  l `sublist_of` k -> valid_subs k = true -> valid_subs l = true.
Proof.
  intros Hsub [HF HN]%valid_subs_iff. apply valid_subs_iff. split.
  - rewrite Forall_forall in HF. apply Forall_forall. intros vt Hin. apply HF.
    by apply (sublist_subseteq _ _ Hsub).
  - eapply sublist_NoDup; [done|]. by apply fmap_sublist.
Qed.

Lemma trivial_pass_sublist (l : list (term * term)) : trivial_pass l `sublist_of` l.
Proof.
  induction l as [l IH] using (induction_ltof1 _ (@length _)). unfold ltof in IH.
  destruct l as [|vt [|wt l]]; simpl.
  - done.
  - destruct (trivial vt); [apply sublist_nil_l | done].
  - destruct (trivial vt).
    + apply sublist_cons, sublist_skip, IH. simpl. lia.
    + apply sublist_skip. apply (IH (wt :: l)). simpl. lia.
Qed.

(** The third loop, on a valid substitution, computes [trivial_pass]. *)
Lemma compose_trivial_loop (n : nat) (seen rest : list (term * term)) :
  (length rest <= n)%nat -> valid_subs (seen ++ rest) = true ->
  for_of n subs
    (fun newSubstitution vt =>
       if isEqual vt.1 (VTerm vt.2) then remove newSubstitution (VTerm vt.1)
       else Ok newSubstitution)
    (length seen) (mkSubstitution (seen ++ rest))
  = Ok (mkSubstitution (seen ++ trivial_pass rest)).
Proof.
  revert seen rest. induction n as [|n IH]; intros seen rest Hlen Hv.
  - destruct rest; [|simpl in Hlen; lia]. simpl.
    by rewrite lookup_ge_None_2 by (rewrite app_nil_r; lia).
  - destruct rest as [|[v t] rest].
    { simpl. by rewrite lookup_ge_None_2 by (rewrite app_nil_r; lia). }
    cbn [for_of subs]. rewrite list_lookup_middle by done. cbn [fst snd].
    assert (Hskip : valid_subs (seen ++ rest) = true).
    { eapply valid_subs_sublist; [|exact Hv].
      apply sublist_app; [done|]. by apply sublist_cons. }
    cbn [trivial_pass]. unfold trivial at 1. cbn [fst snd].
    destruct (isEqual v (VTerm t)) eqn:Htriv.
    + apply valid_subs_iff in Hv as [HF HN].
      apply Forall_app in HF as [_ HF]. apply Forall_cons in HF as [Hvar _].
      simpl in Hvar. apply is_Var_true in Hvar as [x ->].
      rewrite fmap_app, fmap_cons in HN. apply NoDup_app in HN as (_ & _ & HN).
      apply NoDup_cons in HN as [Hx _]. simpl in Hx.
      rewrite remove_last, bind_Ok by done.
      destruct rest as [|wt rest].
      * destruct n; simpl; by rewrite lookup_ge_None_2 by (rewrite app_nil_r; lia).
      * replace (S (length seen)) with (length (seen ++ [wt]))
          by (rewrite length_app; simpl; lia).
        rewrite (cons_middle wt seen rest), app_assoc.
        rewrite IH; [by rewrite <-app_assoc | simpl in Hlen; lia |].
        by rewrite <-app_assoc.
    + rewrite bind_Ok.
      replace (S (length seen)) with (length (seen ++ [(v, t)]))
        by (rewrite length_app; simpl; lia).
      rewrite (cons_middle (v, t) seen rest), app_assoc.
      rewrite IH; [by rewrite <-app_assoc | simpl in Hlen; lia |].
      by rewrite <-app_assoc.
Qed.

Lemma compose_trivial_valid (s : Substitution) :
  valid s = true -> compose_trivial s = Ok (mkSubstitution (trivial_pass (subs s))).
Proof.
  destruct s as [l]. unfold valid, compose_trivial. cbn [subs]. intros Hv.
  by apply (compose_trivial_loop (length l) [] l).
Qed.

(** The iteration budget of the third loop is never used up, whatever the
    substitution. *)
Lemma for_of_budget {A St} (arr : St -> list A) (body : St -> A -> result St) :
  (forall st x st', body st x = Ok st' -> (length (arr st') <= length (arr st))%nat) ->
  (forall st x, body st x ≠ Throw BudgetExhausted) ->
  forall n i st, (length (arr st) <= i + n)%nat ->
                 for_of n arr body i st ≠ Throw BudgetExhausted.
Proof.
  intros Hlen Hbody n. induction n as [|n IH]; intros i st Hn.
  - simpl. by rewrite lookup_ge_None_2 by lia.
  - simpl. destruct (arr st !! i) as [x|]; [|done].
    destruct (body st x) as [st'|e] eqn:Hb.
    + rewrite bind_Ok. apply IH. apply Hlen in Hb. lia.
    + simpl. intros [= ->]. by apply (Hbody st x).
Qed.

Lemma remove_length (s s' : Substitution) (v : value) :
  remove s v = Ok s' -> (length (subs s') <= length (subs s))%nat.
Proof.
  unfold remove. destruct v as [| | | | |[x| |]| |]; try done.
  destruct (negb _); intros [= <-]; [|done]. cbn [subs].
  apply sublist_length, sublist_delete.
Qed.

Lemma compose_trivial_total (s : Substitution) :
  compose_trivial s ≠ Throw BudgetExhausted.
Proof.
  unfold compose_trivial. apply for_of_budget; [| |lia].
  - intros st x st'. destruct (isEqual _ _); [apply remove_length|].
    by intros [= <-].
  - intros st x. destruct (isEqual _ _); [|done].
    unfold remove. destruct x.1 as [y| |]; try done. by destruct (negb _).
Qed.

(** ** What compose returns on valid substitutions *)

Lemma filter_notin_nil (l : list (term * term)) :
  filter (fun vt => vt.1 ∉ ([] : list term)) l = l.
Proof.
  induction l as [|p l IH]; [done|].
  rewrite filter_cons_True; [by rewrite IH|]. apply not_elem_of_nil.
Qed.

Lemma composed_valid (this sigma : Substitution) :
  valid this = true -> valid sigma = true -> valid (composed this sigma) = true.
Proof.
  unfold valid, composed. cbn [subs]. intros H1 H2.
  assert (HR : valid_subs (rewritten this sigma) = true).
  { erewrite valid_subs_keys; [exact H1|]. apply rewritten_keys. }
  pose proof (valid_subs_sublist _ _ (trivial_pass_sublist _) HR) as HT.
  apply valid_subs_iff in HT as [HTF HTN]. apply valid_subs_iff in H2 as [HF HN].
  apply valid_subs_iff. rewrite Forall_app, fmap_app, NoDup_app. repeat split.
  - done.
  - rewrite Forall_forall in HF. apply Forall_forall.
    intros vt [_ Hin]%list_elem_of_filter. by apply HF.
  - done.
  - intros k Hk1 Hk2.
    apply list_elem_of_fmap in Hk2 as (vt & -> & [Hout _]%list_elem_of_filter).
    apply Hout. rewrite <-(rewritten_keys this sigma).
    eapply sublist_subseteq; [|exact Hk1]. apply fmap_sublist, trivial_pass_sublist.
  - eapply sublist_NoDup; [exact HN|]. apply fmap_sublist, sublist_filter.
Qed.

Lemma compose_valid (this sigma : Substitution) :
  valid this = true -> valid sigma = true ->
  compose this (VSubstitution sigma) = Ok (composed this sigma).
Proof.
  intros H1 H2. unfold compose.
  destruct (length (subs this) =? 0)%nat eqn:Hlen.
  - apply Nat.eqb_eq, nil_length_inv in Hlen.
    rewrite cloneSubstitution_valid by done.
    unfold composed, rewritten. rewrite Hlen. simpl. rewrite filter_notin_nil.
    by destruct sigma.
  - rewrite compose_rewrite_valid, bind_Ok by done.
    rewrite cloneSubstitution_valid, bind_Ok by done.
    assert (HR : valid_subs (rewritten this sigma) = true).
    { erewrite valid_subs_keys; [exact H1|]. apply rewritten_keys. }
    destruct sigma as [l2]. unfold valid in H2. cbn [subs] in H2.
    rewrite compose_restrict_valid, bind_Ok;
      [|by apply valid_subs_iff in HR as [? _] | by apply valid_subs_iff in H2 as [_ ?]].
    rewrite compose_trivial_valid, bind_Ok by done. cbn [subs].
    unfold compose_union. cbn [subs]. rewrite foldR_add.
    + unfold composed. cbn [subs]. by rewrite rewritten_keys.
    + rewrite rewritten_keys.
      apply (composed_valid this (mkSubstitution l2)); done.
Qed.

Lemma compose_empty_left (sigma : Substitution) :
  valid sigma = true -> compose new_Substitution (VSubstitution sigma) = Ok sigma.
Proof. intros Hv. unfold compose. simpl. by apply cloneSubstitution_valid. Qed.

Lemma rewritten_empty (this : Substitution) :
  rewritten this new_Substitution = subs this.
Proof.
  unfold rewritten. simpl. induction (subs this) as [|[v t] l IH]; simpl; [done|].
  by rewrite subst_nil, IH.
Qed.

Lemma compose_empty_right (this : Substitution) :
  valid this = true ->
  compose this (VSubstitution new_Substitution)
  = Ok (mkSubstitution (trivial_pass (subs this))).
Proof.
  intros Hv. rewrite compose_valid by done.
  unfold composed. rewrite rewritten_empty. simpl. by rewrite app_nil_r.
Qed.

Lemma trivial_pass_no_adjacent (l : list (term * term)) :
  no_adjacent_trivial l = true -> Forall (fun vt => trivial vt = false) (trivial_pass l).
Proof.
  induction l as [l IH] using (induction_ltof1 _ (@length _)). unfold ltof in IH.
  destruct l as [|vt [|wt l]]; intros Hna.
  - constructor.
  - simpl. destruct (trivial vt) eqn:Hvt; [constructor|]. by repeat constructor.
  - cbn [no_adjacent_trivial] in Hna. cbn [trivial_pass].
    apply andb_true_iff in Hna as [Hpair Hna].
    destruct (trivial vt) eqn:Hvt.
    + simpl in Hpair. apply negb_true_iff in Hpair.
      apply andb_true_iff in Hna as [_ Hna].
      constructor; [done|]. apply IH; [simpl; lia | done].
    + constructor; [done|]. apply (IH (wt :: l)); [simpl; lia | done].
Qed.

(** ** The source's form of FuncTerm.isEqual *)

Lemma isEqual_symbol_irrelevant (f f' g g' : Func) (a b : list term) :
  isEqual (FuncTerm f a) (VTerm (FuncTerm g b))
  = isEqual (FuncTerm f' a) (VTerm (FuncTerm g' b)).
Proof. reflexivity. Qed.

Lemma isEqual_FuncTerm (f g : Func) (a b : list term) :
  isEqual (FuncTerm f a) (VTerm (FuncTerm g b))
  = forallb (fun x => isEqual x.1 x.2) (zip a (map VTerm b)).
Proof.
  cbn [isEqual]. unfold zip. revert b.
  induction a as [|x a IH]; intros b; [done|].
  rewrite imap_cons. cbn [forallb fst snd]. f_equal.
  - by destruct b.
  - rewrite IH. f_equal. apply imap_ext. intros i y _. simpl. by destruct b.
Qed.

Lemma isEqual_undefined (t : term) : isEqual t VUndefined = false.
Proof. by destruct t. Qed.

(** What [FuncTerm.isEqual] decides: the receiver's arguments equal, one by
    one, the first arguments of the other application. *)
Lemma isEqual_FuncTerm_prefix (f g : Func) (a b : list term) :
  isEqual (FuncTerm f a) (VTerm (FuncTerm g b)) = true
  <-> exists b1 b2, b = b1 ++ b2
                    /\ Forall2 (fun x y => isEqual x (VTerm y) = true) a b1.
Proof.
  cbn [isEqual]. revert b. induction a as [|x a IH]; intros b.
  - split; [|done]. intros _. exists [], b. split; [done | constructor].
  - destruct b as [|y b]; cbn [tail].
    + rewrite isEqual_undefined. split; [done|].
      intros (b1 & b2 & Hb & HF). symmetry in Hb.
      apply app_eq_nil in Hb as [-> _]. inversion HF.
    + rewrite andb_true_iff, IH. split.
      * intros [Hxy (b1 & b2 & -> & HF)]. exists (y :: b1), b2.
        split; [done | by constructor].
      * intros (b1 & b2 & Hb & HF). inversion HF as [|? y' ? b1' Hxy HF']; subst.
        injection Hb as -> ->. split; [done|]. by exists b1', b2.
Qed.

Lemma NoDup_keys_functional (l : list (term * term)) (k t u : term) :
  NoDup l.*1 -> (k, t) ∈ l -> (k, u) ∈ l -> t = u.
Proof.
  induction l as [|[v w] l IH]; intros HN Ht Hu; [by apply elem_of_nil in Ht|].
  rewrite fmap_cons in HN. apply NoDup_cons in HN as [Hv HN]. simpl in Hv.
  apply elem_of_cons in Ht as [Ht|Ht]; apply elem_of_cons in Hu as [Hu|Hu].
  - congruence.
  - exfalso. apply Hv. injection Ht as <- _.
    by apply (list_elem_of_fmap_2 fst _ (k, u)).
  - exfalso. apply Hv. injection Hu as <- _.
    by apply (list_elem_of_fmap_2 fst _ (k, t)).
  - by apply IH.
Qed.

(** ** The claims on the value model *)

(** C1. The published example: with [f/1], [g/2], variables [x], [y],
    constants [a], [b], [c], [sigma1 = {x -> g(y,c)}] and
    [sigma2 = {y -> a}], the composition [sigma1.compose(sigma2)] renders as
    ["{x -> g(a,c), y -> a}"] and applying it to [f(x)] renders as
    ["f(g(a,c))"]. *)
Theorem published_example_renders :
  published_example = Ok ("{x -> g(a,c), y -> a}", "f(g(a,c))").
Proof. vm_compute. reflexivity. Qed.

(** C2. [FuncTerm.isEqual] compares the arguments only: it never looks at
    the two symbols, and arguments of the right-hand term beyond those of the
    receiver are not looked at either.  So [f(x)] equals [g(x)] although
    [Func.isEqual] tells [f] from [g], and [h()] equals [g(x)] although the
    argument counts differ. *)
Theorem isEqual_ignores_symbol :
  let f := mkFunc "f" 1 in
  let g := mkFunc "g" 1 in
  let h := mkFunc "h" 0 in
  exists fx gx h0,
    _call f [VTerm (Var "x")] = Ok fx /\
    _call g [VTerm (Var "x")] = Ok gx /\
    _call h [] = Ok h0 /\
    Func_isEqual f (VFunc g) = false /\
    isEqual fx (VTerm gx) = true /\
    length (args_of h0) ≠ length (args_of gx) /\
    isEqual h0 (VTerm gx) = true.
Proof. simpl. do 3 eexists. repeat split; try reflexivity. simpl. lia. Qed.

(** C3, counterexample.  [sigma1 = {x -> a}] and [sigma2 = {y -> y}] are
    valid, and [sigma1.compose(sigma2)] is [{x -> a, y -> y}]: the pair
    [y -> y] copied from [sigma2] has [isEqual(v, t)]. *)
Lemma compose_copies_trivial_pair :
  let sigma1 := mkSubstitution [(Var "x", Constant "a")] in
  let sigma2 := mkSubstitution [(Var "y", Var "y")] in
  valid sigma1 = true /\ valid sigma2 = true /\
  compose sigma1 (VSubstitution sigma2)
  = Ok (mkSubstitution [(Var "x", Constant "a"); (Var "y", Var "y")]) /\
  isEqual (Var "y") (VTerm (Var "y")) = true.
Proof. repeat split. Qed.

(** The same on [sigma1]'s side: of two trivial rewritten pairs next to each
    other the loop removes the first and steps over the second. *)
Lemma compose_steps_over_trivial_pair :
  let sigma1 := mkSubstitution [(Var "x", Var "y"); (Var "z", Var "w")] in
  let sigma2 := mkSubstitution [(Var "y", Var "x"); (Var "w", Var "z")] in
  valid sigma1 = true /\ valid sigma2 = true /\
  compose sigma1 (VSubstitution sigma2)
  = Ok (mkSubstitution [(Var "z", Var "z"); (Var "y", Var "x"); (Var "w", Var "z")]).
Proof. repeat split. Qed.

(** C3, amended.  For valid [sigma1] and [sigma2] such that no two rewritten
    pairs of [sigma1] next to each other are both trivial, [compose] returns a
    substitution in which every pair [(v, t)] with [isEqual(v, t)] is a pair
    of [sigma2] whose variable [sigma1] does not bind: the pairs copied from
    [sigma2] are not tested. *)
Theorem compose_trivial_pairs_from_sigma (sigma1 sigma2 : Substitution) :
  valid sigma1 = true -> valid sigma2 = true ->
  no_adjacent_trivial (rewritten sigma1 sigma2) = true ->
  exists r,
    compose sigma1 (VSubstitution sigma2) = Ok r /\
    forall vt, vt ∈ subs r -> trivial vt = true ->
               vt ∈ subs sigma2 /\ vt.1 ∉ (subs sigma1).*1.
Proof.
  intros H1 H2 Hna. exists (composed sigma1 sigma2).
  split; [by apply compose_valid|].
  intros vt Hin Htriv. unfold composed in Hin. cbn [subs] in Hin.
  apply elem_of_app in Hin as [Hin|Hin].
  - apply trivial_pass_no_adjacent in Hna. rewrite Forall_forall in Hna.
    rewrite (Hna vt Hin) in Htriv. discriminate.
  - apply list_elem_of_filter in Hin. tauto.
Qed.

Lemma compose_trivial_pairs_from_sigma_witness :
  let sigma1 := mkSubstitution [(Var "x", Var "y"); (Var "z", Constant "a")] in
  let sigma2 := mkSubstitution [(Var "y", Var "x"); (Var "w", Var "w")] in
  exists r,
    compose sigma1 (VSubstitution sigma2) = Ok r /\
    forall vt, vt ∈ subs r -> trivial vt = true ->
               vt ∈ subs sigma2 /\ vt.1 ∉ (subs sigma1).*1.
Proof.
  apply (compose_trivial_pairs_from_sigma
           (mkSubstitution [(Var "x", Var "y"); (Var "z", Constant "a")])
           (mkSubstitution [(Var "y", Var "x"); (Var "w", Var "w")]));
    reflexivity.
Defined.

(** C4.  For valid [sigma1] and [sigma2] and a variable [x] bound in both,
    to [t1] by [sigma1]: [compose] returns a substitution made of rewritten
    pairs of [sigma1] followed by pairs of [sigma2]; the part taken from
    [sigma2] has no pair for [x], and every pair for [x] in the result binds
    it to [sigma2.apply(t1)]. *)
Theorem compose_domain_precedence (sigma1 sigma2 : Substitution) (x : string) (t1 : term) :
  valid sigma1 = true -> valid sigma2 = true ->
  (Var x, t1) ∈ subs sigma1 -> Var x ∈ (subs sigma2).*1 ->
  exists r R S0,
    compose sigma1 (VSubstitution sigma2) = Ok r /\
    subs r = R ++ S0 /\
    R `sublist_of` rewritten sigma1 sigma2 /\
    S0 `sublist_of` subs sigma2 /\
    (Var x ∉ S0.*1) /\
    forall t, (Var x, t) ∈ subs r -> apply sigma2 (VTerm t1) = Ok t.
Proof.
  intros H1 H2 Hx1 Hx2.
  exists (composed sigma1 sigma2), (trivial_pass (rewritten sigma1 sigma2)),
    (filter (fun vt => vt.1 ∉ (subs sigma1).*1) (subs sigma2)).
  assert (Hout : Var x ∉ (filter (fun vt => vt.1 ∉ (subs sigma1).*1) (subs sigma2)).*1).
  { intros (vt & Hk & [Hnot _]%list_elem_of_filter)%list_elem_of_fmap.
    apply Hnot. rewrite <-Hk. by apply (list_elem_of_fmap_2 fst _ (Var x, t1)). }
  repeat split; [by apply compose_valid | apply trivial_pass_sublist
                | apply sublist_filter | done |].
  intros t Hin. unfold composed in Hin. cbn [subs] in Hin.
  apply elem_of_app in Hin as [Hin|Hin].
  - apply (sublist_subseteq _ _ (trivial_pass_sublist _)) in Hin.
    unfold rewritten in Hin. apply list_elem_of_fmap in Hin as ([v u] & Heq & Hin).
    simpl in Heq. injection Heq as <- ->.
    rewrite apply_subst. do 2 f_equal.
    apply valid_subs_iff in H1 as [_ HN].
    by apply (NoDup_keys_functional (subs sigma1) (Var x)).
  - exfalso. apply Hout. by apply (list_elem_of_fmap_2 fst _ (Var x, t)).
Qed.

Lemma compose_domain_precedence_witness :
  let sigma1 := mkSubstitution [(Var "x", FuncTerm (mkFunc "g" 1) [Var "y"])] in
  let sigma2 := mkSubstitution [(Var "y", Constant "a"); (Var "x", Constant "b")] in
  exists r R S0,
    compose sigma1 (VSubstitution sigma2) = Ok r /\
    subs r = R ++ S0 /\
    R `sublist_of` rewritten sigma1 sigma2 /\
    S0 `sublist_of` subs sigma2 /\
    (Var "x" ∉ S0.*1) /\
    forall t, (Var "x", t) ∈ subs r ->
              apply sigma2 (VTerm (FuncTerm (mkFunc "g" 1) [Var "y"])) = Ok t.
Proof.
  apply (compose_domain_precedence
           (mkSubstitution [(Var "x", FuncTerm (mkFunc "g" 1) [Var "y"])])
           (mkSubstitution [(Var "y", Constant "a"); (Var "x", Constant "b")])
           "x" (FuncTerm (mkFunc "g" 1) [Var "y"])).
  - reflexivity.
  - reflexivity.
  - simpl. apply list_elem_of_here.
  - simpl. apply list_elem_of_further, list_elem_of_here.
Defined.

(** C5.  [sigma = {x -> x, y -> y}] is valid.  [compose] with the empty
    substitution on the left returns [sigma]; with the empty substitution on
    the right it returns [{y -> y}], although [sigma] without its trivial
    pairs is empty: the loop that removes trivial pairs splices the array it
    iterates and steps over [y -> y]. *)
Theorem compose_empty_right_keeps_trivial :
  let sigma := mkSubstitution [(Var "x", Var "x"); (Var "y", Var "y")] in
  valid sigma = true /\
  compose new_Substitution (VSubstitution sigma) = Ok sigma /\
  filter (fun vt => trivial vt = false) (subs sigma) = [] /\
  compose sigma (VSubstitution new_Substitution)
  = Ok (mkSubstitution [(Var "y", Var "y")]).
Proof. repeat split. Qed.

(** C6, counterexample.  [new FuncTerm(f, [])] with [f] of arity 1 succeeds
    and yields a term with no argument. *)
Lemma new_FuncTerm_ignores_arity :
  let f := mkFunc "f" 1 in
  new_FuncTerm (VFunc f) (VArray []) = Ok (FuncTerm f []) /\
  Z.of_nat (length (args_of (FuncTerm f []))) ≠ arity f.
Proof. split; [reflexivity | simpl; lia]. Qed.

(** C6, amended.  Calling a symbol, [f(...args)], throws "Wrong number of
    arguments" whenever the number of arguments differs from the arity of
    [f], and every term it returns has [f]'s name and arity and as many
    arguments as the arity.  The constructor [new FuncTerm(func, args)]
    checks only that [func] is a [Func] and [args] an array of terms. *)
Theorem call_enforces_arity (f : Func) (args : list value) :
  (Z.of_nat (length args) ≠ arity f ->
   _call f args = Throw (WrongNumberOfArguments (arity f) (length args))) /\
  (forall t, _call f args = Ok t ->
             func_of t = Some f /\ map VTerm (args_of t) = args /\
             Z.of_nat (length (args_of t)) = arity f) /\
  (forall g ts, new_FuncTerm (VFunc g) (VArray (map VTerm ts)) = Ok (FuncTerm g ts)).
Proof.
  split; [|split].
  - intros Hne. unfold _call. apply Z.eqb_neq in Hne. by rewrite Hne.
  - intros t. unfold _call. destruct (Z.of_nat (length args) =? arity f) eqn:Hlen; [|done].
    apply Z.eqb_eq in Hlen. cbn [negb]. rewrite new_Func_fields, bind_Ok.
    unfold new_FuncTerm. destruct (forallb isTerm args) eqn:Hall; [|done].
    intros [= <-]. cbn [func_of args_of].
    assert (Hargs : map VTerm (omap as_term args) = args).
    { clear Hlen. induction args as [|a l IH]; [done|].
      simpl in Hall. apply andb_true_iff in Hall as [Ha Hl].
      destruct a; try done. cbn [omap list_omap as_term map]. by rewrite (IH Hl). }
    repeat split; [done|]. rewrite <-Hlen. f_equal.
    by rewrite <-Hargs at 2; rewrite length_map.
  - intros g ts. apply new_FuncTerm_terms.
Qed.

Lemma call_enforces_arity_witness :
  let f := mkFunc "f" 1 in
  let args := [VTerm (Var "x"); VTerm (Var "y")] in
  _call f args = Throw (WrongNumberOfArguments 1 2) /\
  func_of (FuncTerm f [Var "x"]) = Some f.
Proof.
  split.
  - apply (proj1 (call_enforces_arity (mkFunc "f" 1)
                    [VTerm (Var "x"); VTerm (Var "y")])).
    simpl. lia.
  - apply (proj1 (proj2 (call_enforces_arity (mkFunc "f" 1) [VTerm (Var "x")])) 
             (FuncTerm (mkFunc "f" 1) [Var "x"])).
    reflexivity.
Defined.

(** C7, counterexample.  [new Func("f", -1)] succeeds. *)
Lemma new_Func_negative_arity :
  new_Func (VString "f") (VInteger (-1)) = Ok (mkFunc "f" (-1)).
Proof. reflexivity. Qed.

(** C7, amended.  [new Func(name, arity)] throws exactly when [name] is not a
    string or [arity] is not an integer ([Number.isInteger]); every integer
    arity, negative ones included, is accepted. *)
Theorem new_Func_checks (name ar : value) :
  match new_Func name ar with
  | Ok f => name = VString (symbol_name f) /\ ar = VInteger (arity f)
  | Throw e =>
      (e = FunctionNameNotString /\ forall n, name ≠ VString n) \/
      (e = ArityNotInteger /\ (exists n, name = VString n) /\ forall a, ar ≠ VInteger a)
  end.
Proof.
  destruct name; simpl; try (left; split; [done|congruence]).
  destruct ar; simpl; try (right; split; [done|split; [eauto|congruence]]).
  done.
Qed.

(** C9.  For valid substitutions [sigma1] and [sigma2], [compose] returns:
    none of its [add] calls throws "Variable already exists in
    substitution" (nor does anything else throw), and the substitution
    returned is valid again. *)
Theorem compose_never_duplicates (sigma1 sigma2 : Substitution) :
  valid sigma1 = true -> valid sigma2 = true ->
  exists r, compose sigma1 (VSubstitution sigma2) = Ok r /\ valid r = true.
Proof.
  intros H1 H2. exists (composed sigma1 sigma2).
  split; [by apply compose_valid | by apply composed_valid].
Qed.

Lemma compose_never_duplicates_witness :
  exists r,
    compose (mkSubstitution [(Var "x", Var "y"); (Var "y", Var "x")])
            (VSubstitution (mkSubstitution [(Var "y", Constant "a"); (Var "x", Var "x")]))
    = Ok r /\ valid r = true.
Proof.
  apply (compose_never_duplicates
           (mkSubstitution [(Var "x", Var "y"); (Var "y", Var "x")])
           (mkSubstitution [(Var "y", Constant "a"); (Var "x", Var "x")]));
    reflexivity.
Defined.

(** C10.  [add] succeeds exactly when its first argument is a [Variable],
    its second a term, and the variable is not yet a key; it then appends the
    pair.  The term is not compared with the variable, so [s.add(x, x)]
    succeeds whenever [x] is not bound in [s]. *)
Theorem add_accepts_trivial_binding (s : Substitution) (x : string) :
  contains s (VTerm (Var x)) = Ok false ->
  add s (VTerm (Var x)) (VTerm (Var x))
  = Ok (mkSubstitution (subs s ++ [(Var x, Var x)])) /\
  (forall t, add s (VTerm (Var x)) (VTerm t)
             = Ok (mkSubstitution (subs s ++ [(Var x, t)]))) /\
  (forall v t s', add s v t = Ok s' ->
                  exists y u, v = VTerm (Var y) /\ t = VTerm u /\
                              contains s v = Ok false).
Proof.
  intros Hc. simpl in Hc. injection Hc as Hc. apply bound_false_iff in Hc.
  repeat split; [by apply add_fresh | by intros; apply add_fresh |].
  intros v t s' (y & u & -> & -> & Hy & _)%add_Ok_inv. exists y, u.
  repeat split. simpl. f_equal. by apply bound_false_iff.
Qed.

Lemma add_accepts_trivial_binding_witness :
  add (mkSubstitution [(Var "y", Constant "a")]) (VTerm (Var "x")) (VTerm (Var "x"))
  = Ok (mkSubstitution [(Var "y", Constant "a"); (Var "x", Var "x")]).
Proof.
  apply (add_accepts_trivial_binding (mkSubstitution [(Var "y", Constant "a")]) "x").
  reflexivity.
Defined.

(** * The object store: simulation of the value model *)

Section heap_facts.
Local Open Scope nat_scope.

Lemma max_list_le (ns : list nat) (d : nat) :
  Forall (fun n => n <= d) ns -> max_list ns <= d.
Proof. induction 1; simpl; lia. Qed.

Lemma M_bind_Ok {A B} (m : Heap.M A) (f : A -> Heap.M B) (h h' : Heap.heap) (a : A) :
  m h = Ok (a, h') -> (m ≫= f) h = f a h'.
Proof. intros Hm. unfold mbind, Heap.M_bind. by rewrite Hm. Qed.

(** Run the first computation of a sequence, given what it returns. *)
Ltac run H := rewrite (M_bind_Ok _ _ _ _ _ H).

Lemma Forall2_Forall_impl_r {A B} (P Q : A -> B -> Prop) (R : B -> Prop) l k :
  Forall R k -> Forall2 P l k ->
  (forall x y, R y -> P x y -> Q x y) -> Forall2 Q l k.
Proof.
  intros HR HP HQ. induction HP as [|x y l k Hxy _ IH]; [constructor|].
  apply Forall_cons in HR as [Hy HR]. constructor; auto.
Qed.

Lemma height_pos (t : term) : 1 <= height t.
Proof. destruct t; simpl; lia. Qed.

Lemma height_arg (f : Func) (ts : list term) (t : term) :
  t ∈ ts -> (S (height t) <= height (FuncTerm f ts))%nat.
Proof.
  intros Hin. simpl. apply le_n_S, max_list_elem_of_le.
  by apply (list_elem_of_fmap_2 height).
Qed.

Lemma height_args (f : Func) (ts : list term) (d : nat) :
  height (FuncTerm f ts) <= S d -> Forall (fun t => height t <= d) ts.
Proof.
  intros Hd. apply Forall_forall. intros t Hin.
  pose proof (height_arg f ts t Hin). lia.
Qed.

(** ** Reading terms *)

Lemma repr_mono (n n' : Heap.loc) (h h' : Heap.heap) (l : Heap.loc) (t : term) :
  n' <= n ->
  (forall l o, h !! l = Some o -> Heap.is_term_obj o = true -> h' !! l = Some o) ->
  Heap.repr n h l t -> Heap.repr n' h' l t.
Proof.
  intros Hn Hh. revert l.
  induction t as [x|c|f ts IH] using term_ind'; intros l Hr; inversion Hr; subst.
  - apply Heap.repr_Var; [lia | by apply Hh].
  - apply Heap.repr_Constant; [lia | by apply Hh].
  - eapply Heap.repr_FuncTerm; [lia | by apply Hh |].
    eapply Forall2_Forall_impl_r; [exact IH | eassumption |]. auto.
Qed.

Lemma repr_app (n : Heap.loc) (h k : Heap.heap) (l : Heap.loc) (t : term) :
  Heap.repr n h l t -> Heap.repr n (h ++ k) l t.
Proof.
  apply repr_mono; [done|]. intros l' o Hl _. by apply lookup_app_l_Some.
Qed.

Lemma repr_weaken (n n' : Heap.loc) (h : Heap.heap) (l : Heap.loc) (t : term) :
  n' <= n -> Heap.repr n h l t -> Heap.repr n' h l t.
Proof. intros Hn. apply repr_mono; auto. Qed.

Lemma repr_keeps (m n : Heap.loc) (h h' : Heap.heap) (l : Heap.loc) (t : term) :
  Heap.keeps m h h' -> Heap.repr n h l t -> Heap.repr n h' l t.
Proof. intros [_ Hk]. apply repr_mono; [done|]. intros; apply Hk; auto. Qed.

Lemma repr_isTerm (n : Heap.loc) (h : Heap.heap) (l : Heap.loc) (t : term) :
  Heap.repr n h l t -> Heap.isTerm h l = true.
Proof.
  intros Hr. unfold Heap.isTerm.
  inversion Hr as [? ? ? Hl|? ? ? Hl|? ? ? ? ? Hl]; by rewrite Hl.
Qed.

Lemma read_from_repr (n : Heap.loc) (d : nat) (h : Heap.heap) (l : Heap.loc) (t : term) :
  Heap.read_from n d h l = Some t -> Heap.repr n h l t /\ height t <= d.
Proof.
  revert l t. induction d as [|d IH]; intros l t; [done|]. simpl.
  destruct (l <? n) eqn:Hln; [done|]. apply Nat.ltb_ge in Hln.
  destruct (h !! l) as [[x|c|f args|ps]|] eqn:Hl; try done.
  - intros [= <-]. split; [by apply Heap.repr_Var | simpl; lia].
  - intros [= <-]. split; [by apply Heap.repr_Constant | simpl; lia].
  - destruct (mapM (Heap.read_from n d h) args) as [ts|] eqn:Hm; [|done].
    intros [= <-]. apply mapM_Some in Hm.
    assert (Hall : Forall2 (fun a t => Heap.repr n h a t /\ height t <= d) args ts).
    { eapply Forall2_impl; [exact Hm|]. intros; by apply IH. }
    split.
    + eapply Heap.repr_FuncTerm; [done..|]. eapply Forall2_impl; [exact Hall|].
      by intros ?? [? ?].
    + simpl. apply le_n_S, max_list_le, Forall_fmap.
      eapply Forall2_Forall_r; [exact Hall|]. apply Forall_true.
      by intros ?? [? ?].
Qed.

Lemma repr_read_from (n : Heap.loc) (d : nat) (h : Heap.heap) (l : Heap.loc) (t : term) :
  Heap.repr n h l t -> height t <= d -> Heap.read_from n d h l = Some t.
Proof.
  revert l d. induction t as [x|c|f ts IH] using term_ind'; intros l d Hr Hd;
    inversion Hr as [? ? Hn Hl|? ? Hn Hl|? ? args ? Hn Hl Hargs]; subst;
    (destruct d as [|d]; [simpl in Hd; lia|]); simpl;
    apply Nat.ltb_ge in Hn; rewrite Hn, Hl; try done.
  assert (Hm : mapM (Heap.read_from n d h) args = Some ts).
  { apply mapM_Some. apply Forall2_same_length_lookup. split.
    - by apply Forall2_length in Hargs.
    - intros i a t Ha Ht. rewrite Forall_forall in IH. apply IH.
      + by eapply list_elem_of_lookup_2.
      + by eapply Forall2_lookup_lr.
      + assert (S (height t) <= height (FuncTerm f ts))
          by (eapply height_arg, list_elem_of_lookup_2; done).
        lia. }
  by rewrite Hm.
Qed.

(** ** The read-only functions agree with the value model *)

Lemma repr_Var_inv (n : Heap.loc) (h : Heap.heap) (l : Heap.loc) (t : term) (x : string) :
  Heap.repr n h l t -> h !! l = Some (Heap.OVariable x) -> t = Var x.
Proof. inversion 1; congruence. Qed.

Lemma isEqual_sim (d : nat) (h : Heap.heap) (this : Heap.loc) (t : term)
    (v : option Heap.loc) (vv : value) :
  Heap.repr 0 h this t -> height t <= d -> Heap.repr_value h v vv ->
  Heap.isEqual d h this v = Ok (isEqual t vv).
Proof.
  revert d this v vv.
  induction t as [x|c|f ts IH] using term_ind'; intros d this v vv Hr Hd Hv;
    inversion Hr as [? ? _ Hl|? ? _ Hl|? ? args ? _ Hl Hargs]; subst;
    (destruct d as [|d]; [simpl in Hd; lia|]); cbn [Heap.isEqual]; rewrite Hl.
  - destruct v as [l|]; simpl in Hv.
    + destruct Hv as (tv & Hrv & ->). simpl.
      inversion Hrv as [? ? _ Hlv|? ? _ Hlv|? ? ? ? _ Hlv _]; by rewrite Hlv.
    + by subst.
  - destruct v as [l|]; simpl in Hv.
    + destruct Hv as (tv & Hrv & ->). simpl.
      inversion Hrv as [? ? _ Hlv|? ? _ Hlv|? ? ? ? _ Hlv _]; by rewrite Hlv.
    + by subst.
  - destruct v as [l|]; simpl in Hv; [|by subst].
    destruct Hv as (tv & Hrv & ->). simpl.
    inversion Hrv as [? ? _ Hlv|? ? _ Hlv|? g targs us _ Hlv Htargs]; subst;
      rewrite Hlv; [done..|].
    assert (Hds : Forall (fun t => height t <= d) ts).
    { apply Forall_forall. intros t Hin.
      pose proof (height_arg f ts t Hin). lia. }
    clear Hr Hrv Hl Hlv Hd. revert targs us Htargs.
    induction Hargs as [|a t args ts Hat Hargs IHargs]; intros targs us Htargs; [done|].
    apply Forall_cons in IH as [IHt IH]. apply Forall_cons in Hds as [Hdt Hds].
    rewrite (IHt d a (head targs) (match us with [] => VUndefined | y :: _ => VTerm y end));
      [|done..|].
    + destruct (isEqual t _); [|done]. simpl.
      apply IHargs; [done..|]. destruct Htargs; [constructor|done].
    + destruct Htargs; simpl; eauto.
Qed.

Lemma some_isEqual_sim (d : nat) (h : Heap.heap) (ps : list (Heap.loc * Heap.loc))
    (sigma : list (term * term)) (variable : Heap.loc) (t : term) :
  Forall2 (Heap.repr_pair 0 h) ps sigma ->
  Forall (fun vt => height vt.1 <= d) sigma ->
  Heap.repr 0 h variable t ->
  Heap.some_isEqual d h ps variable
  = Ok (existsb (fun vt => isEqual vt.1 (VTerm t)) sigma).
Proof.
  intros Hps Hd Hv. induction Hps as [|p vt ps sigma [Hp _] _ IH]; [done|].
  apply Forall_cons in Hd as [Hd1 Hd]. simpl.
  rewrite (isEqual_sim d h p.1 vt.1 (Some variable) (VTerm t)); [|done..|simpl; eauto].
  destruct (isEqual vt.1 (VTerm t)); [done|]. by apply IH.
Qed.

Lemma remove_scan_sim (d : nat) (h : Heap.heap) (ps : list (Heap.loc * Heap.loc))
    (sigma : list (term * term)) (variable : Heap.loc) (t : term) (i : nat) (idx : Z) :
  Forall2 (Heap.repr_pair 0 h) ps sigma ->
  Forall (fun vt => height vt.1 <= d) sigma ->
  Heap.repr 0 h variable t ->
  Heap.remove_scan d h ps variable i idx
  = Ok (remove_scan sigma (VTerm t) i idx).
Proof.
  intros Hps Hd Hv. revert i idx.
  induction Hps as [|p vt ps sigma [Hp _] _ IH]; intros i idx; [done|].
  apply Forall_cons in Hd as [Hd1 Hd]. simpl.
  rewrite (isEqual_sim d h p.1 vt.1 (Some variable) (VTerm t)); [|done..|simpl; eauto].
  by apply IH.
Qed.

Lemma find_isEqual_sim (d : nat) (h : Heap.heap) (ps : list (Heap.loc * Heap.loc))
    (sigma : list (term * term)) (l : Heap.loc) (t : term) :
  Forall2 (Heap.repr_pair 0 h) ps sigma ->
  Forall (fun vt => height vt.1 <= d) sigma ->
  Heap.repr 0 h l t ->
  match find (fun vt => isEqual vt.1 (VTerm t)) sigma with
  | Some vt => exists p, Heap.find_isEqual d h ps l = Ok (Some p) /\ Heap.repr_pair 0 h p vt
  | None => Heap.find_isEqual d h ps l = Ok None
  end.
Proof.
  intros Hps Hd Hv. induction Hps as [|p vt ps sigma Hp _ IH]; [done|].
  apply Forall_cons in Hd as [Hd1 Hd]. simpl.
  rewrite (isEqual_sim d h p.1 vt.1 (Some l) (VTerm t));
    [|by destruct Hp|done|simpl; eauto].
  destruct (isEqual vt.1 (VTerm t)); [eauto|]. by apply IH.
Qed.

(** ** The allocating functions *)

Lemma mapM_allocs (f : Heap.loc -> Heap.M Heap.loc) (g : term -> term)
    (args : list Heap.loc) (ts : list term) (h k0 : Heap.heap) :
  Forall (fun o => Heap.is_term_obj o = true) k0 ->
  Forall2 (fun a t => forall k, Forall (fun o => Heap.is_term_obj o = true) k ->
                                Heap.allocs (f a) (h ++ k) (g t)) args ts ->
  exists rs k,
    mapM f args (h ++ k0) = Ok (rs, h ++ k0 ++ k)
    /\ Forall (fun o => Heap.is_term_obj o = true) k
    /\ Forall2 (Heap.repr (length h) (h ++ k0 ++ k)) rs (map g ts).
Proof.
  intros Hk0 Hall. revert k0 Hk0.
  induction Hall as [|a t args ts Hat _ IH]; intros k0 Hk0.
  - exists [], []. rewrite !app_nil_r. repeat split; constructor.
  - destruct (Hat k0 Hk0) as (r & k1 & Hf & Hk1 & Hr).
    destruct (IH (k0 ++ k1)) as (rs & k2 & Hm & Hk2 & Hrs);
      [by apply Forall_app|].
    exists (r :: rs), (k1 ++ k2). cbn [mapM].
    run Hf. rewrite <-!app_assoc in *.
    run Hm. repeat split.
    + by apply Forall_app.
    + simpl. constructor; [|done].
      rewrite !app_assoc. apply repr_app. rewrite <-app_assoc.
      eapply repr_weaken; [|exact Hr]. rewrite length_app. lia.
Qed.

Lemma new_FuncTerm_allocs (f : Func) (rs : list Heap.loc) (ts : list term)
    (n : nat) (h : Heap.heap) :
  n <= length h ->
  Forall2 (Heap.repr n h) rs ts ->
  Heap.new_FuncTerm f rs h = Ok (length h, h ++ [Heap.OFuncTerm f rs])
  /\ Heap.repr n (h ++ [Heap.OFuncTerm f rs]) (length h) (FuncTerm f ts).
Proof.
  intros Hn Hrs. unfold Heap.new_FuncTerm.
  assert (Hall : forallb (Heap.isTerm h) rs = true).
  { apply forallb_forall. intros r Hin%list_elem_of_In.
    apply list_elem_of_lookup in Hin as [i Hi].
    destruct (Forall2_lookup_l _ _ _ _ _ Hrs Hi) as (t & _ & Hr).
    by eapply repr_isTerm. }
  rewrite Hall. split; [done|].
  eapply Heap.repr_FuncTerm; [done| |].
  - by rewrite lookup_app_r, Nat.sub_diag by done.
  - eapply Forall2_impl; [exact Hrs|]. intros. by apply repr_app.
Qed.

Lemma cloneTerm_allocs (d : nat) (h : Heap.heap) (l : Heap.loc) (t : term) :
  Heap.repr 0 h l t -> height t <= d ->
  Heap.allocs (Heap.cloneTerm d l) h t.
Proof.
  revert d h l. induction t as [x|c|f ts IH] using term_ind'; intros d h l Hr Hd;
    inversion Hr as [? ? _ Hl|? ? _ Hl|? ? args ? _ Hl Hargs]; subst;
    (destruct d as [|d]; [simpl in Hd; lia|]); unfold Heap.allocs;
    cbn [Heap.cloneTerm]; rewrite Hl.
  - exists (length h), [Heap.OVariable x]. repeat split; [by repeat constructor|].
    apply Heap.repr_Var; [done|]. by rewrite lookup_app_r, Nat.sub_diag.
  - exists (length h), [Heap.OConstant c]. repeat split; [by repeat constructor|].
    apply Heap.repr_Constant; [done|]. by rewrite lookup_app_r, Nat.sub_diag.
  - destruct (mapM_allocs (Heap.cloneTerm d) id args ts h []) as (rs & k & Hm & Hk & Hrs).
    { constructor. }
    { pose proof (proj2 (Forall_and _ _) (conj IH (height_args _ _ _ Hd))) as IHd.
      eapply Forall2_Forall_impl_r; [exact IHd | exact Hargs |].
      intros a t [IHt Ht] Hat k Hk. apply IHt; [by apply repr_app | done]. }
    rewrite app_nil_r in Hm. simpl in Hm, Hrs. rewrite map_id in Hrs.
    run Hm.
    unfold Heap.liftR. rewrite new_Func_fields. unfold mbind at 1, Heap.M_bind.
    destruct (new_FuncTerm_allocs f rs ts (length h) (h ++ k)) as [Hnew Hrepr];
      [rewrite length_app; lia | done |].
    rewrite Hnew. exists (length (h ++ k)), (k ++ [Heap.OFuncTerm f rs]).
    rewrite app_assoc. repeat split; [|done].
    apply Forall_app. split; [done|]. by repeat constructor.
Qed.

Lemma repr_pair_mono (n n' : nat) (h h' : Heap.heap) (p : nat * nat) (vt : term * term) :
  n' <= n ->
  (forall l o, h !! l = Some o -> Heap.is_term_obj o = true -> h' !! l = Some o) ->
  Heap.repr_pair n h p vt -> Heap.repr_pair n' h' p vt.
Proof. intros Hn Hh [H1 H2]. split; by eapply repr_mono. Qed.

Lemma repr_subst_app (n : nat) (h k : Heap.heap) (s : nat) (sigma : list (term * term)) :
  Heap.repr_subst n h s sigma -> Heap.repr_subst n (h ++ k) s sigma.
Proof.
  intros (ps & Hs & Hps). exists ps. split; [by apply lookup_app_l_Some|].
  eapply Forall2_impl; [exact Hps|]. intros p vt. apply repr_pair_mono; [done|].
  intros l o Hl _. by apply lookup_app_l_Some.
Qed.

Lemma apply_allocs (d hs : nat) (h : Heap.heap) (this l : nat)
    (sigma : list (term * term)) (t : term) :
  Heap.repr_subst 0 h this sigma ->
  Forall (fun vt => height vt.1 <= hs /\ height vt.2 <= hs) sigma ->
  Heap.repr 0 h l t -> height t + hs <= d ->
  Heap.allocs (Heap.apply d this l) h (subst sigma t).
Proof.
  intros Hs Hhs. revert d h l Hs.
  induction t as [x|c|f ts IH] using term_ind'; intros d h l Hs Hr Hd;
    (destruct d as [|d]; [simpl in Hd; lia|]);
    cbn [Heap.apply]; unfold Heap.allocs;
    rewrite (repr_isTerm _ _ _ _ Hr); cbn [negb];
    destruct Hs as (ps & Hthis & Hps); rewrite Hthis;
    pose proof (Forall2_length _ _ _ Hps) as Hlen;
    (destruct (length ps =? 0) eqn:Hz;
     [apply Nat.eqb_eq in Hz; rewrite Hz in Hlen; symmetry in Hlen;
      apply nil_length_inv in Hlen; subst sigma; rewrite subst_nil;
      apply cloneTerm_allocs; [done | lia] |]);
    inversion Hr as [? ? _ Hl|? ? _ Hl|? ? args ? _ Hl Hargs]; subst; rewrite Hl.
  - assert (Hkeys : Forall (fun vt => height vt.1 <= S d) sigma).
    { eapply Forall_impl; [exact Hhs|]. simpl. intros vt [? _]. simpl in Hd. lia. }
    pose proof (find_isEqual_sim (S d) h ps sigma l (Var x) Hps Hkeys Hr) as Hfind.
    cbn [subst]. destruct (find _ sigma) as [vt|] eqn:Hf.
    + destruct Hfind as (p & -> & [_ Hp2]).
      apply cloneTerm_allocs; [done|].
      apply find_some in Hf as [Hin%list_elem_of_In _].
      rewrite Forall_forall in Hhs. destruct (Hhs vt Hin). simpl in Hd. lia.
    + rewrite Hfind. apply cloneTerm_allocs; [done | simpl; lia].
  - apply cloneTerm_allocs; [done | simpl; lia].
  - destruct (mapM_allocs (Heap.apply d this) (subst sigma) args ts h [])
      as (rs & k & Hm & Hk & Hrs).
    { constructor. }
    { assert (Hds : Forall (fun t => height t + hs <= d) ts).
      { apply Forall_forall. intros t Hin.
        pose proof (height_arg f ts t Hin). lia. }
      pose proof (proj2 (Forall_and _ _) (conj IH Hds)) as IHd.
      eapply Forall2_Forall_impl_r; [exact IHd | exact Hargs |].
      intros a t [IHt Ht] Hat k Hk. apply IHt; [|by apply repr_app | done].
      apply repr_subst_app. by exists ps. }
    rewrite app_nil_r in Hm. simpl in Hm, Hrs.
    run Hm.
    unfold Heap.liftR. rewrite new_Func_fields. unfold mbind at 1, Heap.M_bind.
    destruct (new_FuncTerm_allocs f rs (map (subst sigma) ts) (length h) (h ++ k))
      as [Hnew Hrepr]; [rewrite length_app; lia | done |].
    rewrite Hnew. exists (length (h ++ k)), (k ++ [Heap.OFuncTerm f rs]).
    rewrite app_assoc. repeat split; [|done].
    apply Forall_app. split; [done|]. by repeat constructor.
Qed.

(** ** Frames *)

Lemma keeps_refl (n : nat) (h : Heap.heap) : Heap.keeps n h h.
Proof. split; auto. Qed.

Lemma keeps_trans (n : nat) (h1 h2 h3 : Heap.heap) :
  Heap.keeps n h1 h2 -> Heap.keeps n h2 h3 -> Heap.keeps n h1 h3.
Proof.
  intros [Hl1 H1] [Hl2 H2]. split; [lia|].
  intros l o Hl Ho. apply H2; [|done]. by apply H1.
Qed.

Lemma keeps_app (n : nat) (h k : Heap.heap) : Heap.keeps n h (h ++ k).
Proof.
  split; [rewrite length_app; lia|]. intros l o Hl _. by apply lookup_app_l_Some.
Qed.

Lemma keeps_insert (n s : nat) (h : Heap.heap) (q q' : list (nat * nat)) :
  n <= s -> h !! s = Some (Heap.OSubstitution q) ->
  Heap.keeps n h (<[s := Heap.OSubstitution q']> h).
Proof.
  intros Hn Hs. split; [by rewrite length_insert|].
  intros l o Hl Ho. rewrite list_lookup_insert_ne; [done|].
  intros ->. rewrite Hs in Hl. injection Hl as <-. simpl in Ho. destruct Ho; [lia|done].
Qed.

Lemma keeps_prefix (h h' : Heap.heap) :
  Heap.keeps (length h) h h' -> h `prefix_of` h'.
Proof.
  intros [Hlen Hk]. exists (drop (length h) h').
  rewrite <-(take_drop (length h) h') at 1. f_equal.
  apply list_eq. intros i. destruct (decide (i < length h)) as [Hi|Hi].
  - rewrite lookup_take_lt by done.
    destruct (lookup_lt_is_Some_2 h i Hi) as [o Ho].
    rewrite Ho. apply Hk; auto.
  - rewrite lookup_take_ge by lia. symmetry. apply lookup_ge_None_2. lia.
Qed.

Lemma repr_pair_keeps (m n : nat) (h h' : Heap.heap) (p : nat * nat) (vt : term * term) :
  Heap.keeps m h h' -> Heap.repr_pair n h p vt -> Heap.repr_pair n h' p vt.
Proof. intros Hk [H1 H2]. split; by eapply repr_keeps. Qed.

Lemma repr_pairs_keeps (m n : nat) (h h' : Heap.heap) (ps : list (nat * nat))
    (sigma : list (term * term)) :
  Heap.keeps m h h' ->
  Forall2 (Heap.repr_pair n h) ps sigma -> Forall2 (Heap.repr_pair n h') ps sigma.
Proof.
  intros Hk Hps. eapply Forall2_impl; [exact Hps|].
  intros p vt. by apply repr_pair_keeps with m.
Qed.

Lemma repr_pairs_weaken (n n' : nat) (h : Heap.heap) (ps : list (nat * nat))
    (sigma : list (term * term)) :
  n' <= n ->
  Forall2 (Heap.repr_pair n h) ps sigma -> Forall2 (Heap.repr_pair n' h) ps sigma.
Proof.
  intros Hn Hps. eapply Forall2_impl; [exact Hps|].
  intros p vt. apply repr_pair_mono; auto.
Qed.

(** ** The updating functions *)

Lemma add_store (d : nat) (h : Heap.heap) (this v t : nat) (ps : list (nat * nat))
    (sigma : list (term * term)) (x : string) :
  h !! v = Some (Heap.OVariable x) -> Heap.isTerm h t = true ->
  h !! this = Some (Heap.OSubstitution ps) ->
  Forall2 (Heap.repr_pair 0 h) ps sigma ->
  Forall (fun vt => height vt.1 <= d) sigma ->
  Var x ∉ sigma.*1 ->
  Heap.add d this v t h
  = Ok (tt, <[this := Heap.OSubstitution (ps ++ [(v, t)])]> h).
Proof.
  intros Hv Ht Hthis Hps Hd Hx. unfold Heap.add, Heap.is_Variable.
  rewrite Hv, Ht, Hthis. cbn [negb].
  rewrite (some_isEqual_sim d h ps sigma v (Var x)); [|done..|].
  - apply bound_false_iff in Hx. by rewrite Hx.
  - apply Heap.repr_Var; [lia | done].
Qed.

Lemma contains_store (d : nat) (h : Heap.heap) (this v : nat) (ps : list (nat * nat))
    (sigma : list (term * term)) (x : string) :
  h !! v = Some (Heap.OVariable x) ->
  h !! this = Some (Heap.OSubstitution ps) ->
  Forall2 (Heap.repr_pair 0 h) ps sigma ->
  Forall (fun vt => height vt.1 <= d) sigma ->
  Heap.contains d this v h
  = Ok (existsb (fun vt => isEqual vt.1 (VTerm (Var x))) sigma, h).
Proof.
  intros Hv Hthis Hps Hd. unfold Heap.contains, Heap.is_Variable.
  rewrite Hv, Hthis. cbn [negb].
  rewrite (some_isEqual_sim d h ps sigma v (Var x)); [done..|].
  apply Heap.repr_Var; [lia | done].
Qed.

Lemma remove_store (d : nat) (h : Heap.heap) (this v : nat) (ps : list (nat * nat))
    (sigma : list (term * term)) (x : string) :
  h !! v = Some (Heap.OVariable x) ->
  h !! this = Some (Heap.OSubstitution ps) ->
  Forall2 (Heap.repr_pair 0 h) ps sigma ->
  Forall (fun vt => height vt.1 <= d) sigma ->
  let idx := remove_scan sigma (VTerm (Var x)) 0 (-1) in
  Heap.remove d this v h
  = Ok (tt, <[this := Heap.OSubstitution
                        (if negb (idx =? -1)%Z then delete (Z.to_nat idx) ps else ps)]> h)
  /\ remove (mkSubstitution sigma) (VTerm (Var x))
     = Ok (mkSubstitution
             (if negb (idx =? -1)%Z then delete (Z.to_nat idx) sigma else sigma)).
Proof.
  intros Hv Hthis Hps Hd idx. unfold Heap.remove, Heap.is_Variable, remove.
  rewrite Hv, Hthis. cbn [negb subs].
  rewrite (remove_scan_sim d h ps sigma v (Var x)); [|done..|].
  - fold idx. destruct (negb (idx =? -1)%Z); [done|].
    by rewrite list_insert_id.
  - apply Heap.repr_Var; [lia | done].
Qed.

Lemma for_of_rule (Inv : nat -> Heap.heap -> Prop) (arr : nat) (ps : list (nat * nat))
    (body : nat * nat -> Heap.M unit) :
  (forall i h, Inv i h -> h !! arr = Some (Heap.OSubstitution ps)) ->
  (forall i h p, Inv i h -> ps !! i = Some p ->
                 exists h', body p h = Ok (tt, h') /\ Inv (S i) h') ->
  forall h, Inv 0 h ->
            exists h', Heap.for_of arr body h = Ok (tt, h') /\ Inv (length ps) h'.
Proof.
  intros Harr Hbody h H0. unfold Heap.for_of. rewrite (Harr _ _ H0).
  assert (Hgen : forall n i h, i + n = length ps -> Inv i h ->
            exists h', Heap.for_of_from n arr body i h = Ok (tt, h')
                       /\ Inv (length ps) h').
  { clear h H0. induction n as [|n IH]; intros i h Hn Hi.
    - exists h. simpl. rewrite (Harr _ _ Hi), lookup_ge_None_2 by lia.
      replace (length ps) with i by lia. done.
    - destruct (lookup_lt_is_Some_2 ps i) as [p Hp]; [lia|].
      destruct (Hbody i h p Hi Hp) as (h1 & Hb & Hi1).
      destruct (IH (S i) h1) as (h2 & Hrest & Hfin); [lia | done |].
      exists h2. cbn [Heap.for_of_from]. rewrite (Harr _ _ Hi), Hp.
      by run Hb. }
  by apply Hgen.
Qed.

Lemma NoDup_keys_take (l : list (term * term)) (i : nat) (vt : term * term) :
  NoDup l.*1 -> l !! i = Some vt -> vt.1 ∉ (take i l).*1.
Proof.
  intros HN Hi. rewrite <-(take_drop_middle l i vt Hi) in HN.
  rewrite fmap_app, fmap_cons in HN. apply NoDup_app in HN as (_ & HN & _).
  intros Hin. apply (HN _ Hin), list_elem_of_here.
Qed.

Lemma valid_subs_lookup (l : list (term * term)) (i : nat) (vt : term * term) :
  valid_subs l = true -> l !! i = Some vt ->
  (exists x, vt.1 = Var x) /\ vt.1 ∉ (take i l).*1.
Proof.
  intros [HF HN]%valid_subs_iff Hi. split; [|by apply NoDup_keys_take].
  rewrite Forall_forall in HF. apply is_Var_true, HF.
  by eapply list_elem_of_lookup_2.
Qed.

Lemma repr_Var_lookup (n : nat) (h : Heap.heap) (l : nat) (x : string) :
  Heap.repr n h l (Var x) -> h !! l = Some (Heap.OVariable x).
Proof. by inversion 1. Qed.

(** One [add] on a substitution object at or after [n]. *)
Lemma add_step (d n ns : nat) (h : Heap.heap) (r1 r2 : nat) (qs : list (nat * nat))
    (tau : list (term * term)) (x : string) (t : term) :
  h !! ns = Some (Heap.OSubstitution qs) -> n <= ns ->
  Forall2 (Heap.repr_pair n h) qs tau ->
  Heap.repr n h r1 (Var x) -> Heap.repr n h r2 t ->
  Forall (fun vt => height vt.1 <= d) tau ->
  Var x ∉ tau.*1 ->
  exists h',
    Heap.add d ns r1 r2 h = Ok (tt, h')
    /\ Heap.keeps n h h'
    /\ h' !! ns = Some (Heap.OSubstitution (qs ++ [(r1, r2)]))
    /\ Forall2 (Heap.repr_pair n h') (qs ++ [(r1, r2)]) (tau ++ [(Var x, t)])
    /\ (forall l, l ≠ ns -> h' !! l = h !! l).
Proof.
  intros Hns Hn Hqs Hr1 Hr2 Hd Hx.
  exists (<[ns := Heap.OSubstitution (qs ++ [(r1, r2)])]> h).
  assert (Hk : Heap.keeps n h (<[ns := Heap.OSubstitution (qs ++ [(r1, r2)])]> h))
    by by eapply keeps_insert.
  repeat split.
  - eapply add_store; [by apply repr_Var_lookup in Hr1 | by eapply repr_isTerm
                      | done | | done | done].
    by apply repr_pairs_weaken with n; [lia|].
  - apply Hk.
  - apply Hk.
  - apply list_lookup_insert_eq. by eapply lookup_lt_Some.
  - apply Forall2_app; [by eapply repr_pairs_keeps|].
    constructor; [|constructor]. split; simpl; by eapply repr_keeps.
  - intros l Hl. by apply list_lookup_insert_ne.
Qed.

Lemma allocs_inv (m : Heap.M nat) (h : Heap.heap) (t : term) :
  Heap.allocs m h t ->
  exists r h', m h = Ok (r, h')
               /\ (forall n, Heap.keeps n h h')
               /\ (forall l o, h !! l = Some o -> h' !! l = Some o)
               /\ Heap.repr (length h) h' r t.
Proof.
  intros (r & k & Hm & _ & Hr). exists r, (h ++ k). repeat split; try done.
  - rewrite length_app. lia.
  - intros l o Hl _. by apply lookup_app_l_Some.
  - intros l o Hl. by apply lookup_app_l_Some.
Qed.

Lemma keeps_length (n : nat) (h h' : Heap.heap) : Heap.keeps n h h' -> length h <= length h'.
Proof. by intros [? _]. Qed.

Lemma keeps_lookup (n : nat) (h h' : Heap.heap) (l : nat) (o : Heap.obj) :
  Heap.keeps n h h' -> l < n -> h !! l = Some o -> h' !! l = Some o.
Proof. intros [_ Hk] Hl Ho. apply Hk; auto. Qed.

Lemma cloneSubstitution_store (d : nat) (h : Heap.heap) (s : nat)
    (sigma : list (term * term)) :
  Heap.repr_subst 0 h s sigma -> valid_subs sigma = true ->
  Forall (fun vt => height vt.1 <= d /\ height vt.2 <= d) sigma ->
  exists h' ps,
    Heap.cloneSubstitution d s h = Ok (length h, h')
    /\ Heap.keeps (length h) h h'
    /\ h' !! length h = Some (Heap.OSubstitution ps)
    /\ Forall2 (Heap.repr_pair (length h) h') ps sigma.
Proof.
  intros (ps0 & Hs & Hps0) Hv Hd. unfold Heap.cloneSubstitution, Heap.is_Substitution.
  rewrite Hs. cbn [negb]. set (ns := length h).
  assert (Hs_lt : s < ns) by by eapply lookup_lt_Some.
  pose (Inv := fun (i : nat) (hc : Heap.heap) =>
    Heap.keeps ns h hc /\
    exists qs, hc !! ns = Some (Heap.OSubstitution qs)
               /\ Forall2 (Heap.repr_pair ns hc) qs (take i sigma)).
  destruct (for_of_rule Inv s ps0
              (fun vt => v ← Heap.cloneTerm d vt.1; t ← Heap.cloneTerm d vt.2;
                         Heap.add d ns v t)) with (h := h ++ [Heap.OSubstitution []])
    as (h' & Hloop & [Hk (qs & Hns & Hqs)]).
  - intros i hc [Hk _]. by eapply keeps_lookup.
  - intros i hc p [Hk (qs & Hns & Hqs)] Hp.
    destruct (Forall2_lookup_l _ _ _ _ _ Hps0 Hp) as ([v t] & Hvt & Hpv & Hpt).
    simpl in Hpv, Hpt.
    destruct (valid_subs_lookup _ _ _ Hv Hvt) as [[x Hx] Hfresh]. simpl in Hx. subst v.
    pose proof Hd as HdF. rewrite Forall_forall in Hd.
    destruct (Hd _ (list_elem_of_lookup_2 _ _ _ Hvt)) as [Hd1 Hd2]. simpl in Hd1, Hd2.
    destruct (allocs_inv _ hc (Var x) (cloneTerm_allocs d hc p.1 (Var x)
                (repr_keeps _ _ _ _ _ _ Hk Hpv) Hd1)) as (r1 & h1 & Hc1 & Hk1 & Hl1 & Hr1).
    assert (Hpt1 : Heap.repr 0 h1 p.2 t).
    { eapply repr_keeps; [apply (Hk1 0)|]. by eapply repr_keeps. }
    destruct (allocs_inv _ h1 t (cloneTerm_allocs d h1 p.2 t Hpt1 Hd2))
      as (r2 & h2 & Hc2 & Hk2 & Hl2 & Hr2).
    pose proof (keeps_length _ _ _ Hk) as Hlen.
    pose proof (keeps_length _ _ _ (Hk1 0)) as Hlen1.
    destruct (add_step d ns ns h2 r1 r2 qs (take i sigma) x t)
      as (h3 & Hadd & Hk3 & Hns3 & Hqs3 & _).
    + auto.
    + done.
    + eapply repr_pairs_keeps; [apply (Hk2 ns)|].
      eapply repr_pairs_keeps; [apply (Hk1 ns)|]. done.
    + eapply repr_keeps; [apply (Hk2 ns)|]. eapply repr_weaken; [|exact Hr1]. lia.
    + eapply repr_weaken; [|exact Hr2]. lia.
    + apply Forall_take. eapply Forall_impl; [exact HdF|]. by intros ? [? ?].
    + done.
    + exists h3. split.
      * run Hc1. by run Hc2.
      * split.
        -- eapply keeps_trans; [exact Hk|]. eapply keeps_trans; [apply Hk1|].
           eapply keeps_trans; [apply Hk2|]. done.
        -- exists (qs ++ [(r1, r2)]). split; [done|].
           by rewrite (take_S_r _ _ _ Hvt).
  - split; [apply keeps_app|]. exists []. split.
    + by rewrite lookup_app_r, Nat.sub_diag.
    + rewrite take_0. constructor.
  - exists h', qs.
    rewrite (M_bind_Ok _ _ h (h ++ [Heap.OSubstitution []]) (length h) eq_refl).
    fold ns. run Hloop.
    repeat split; try done; try apply Hk.
    by rewrite (Forall2_length _ _ _ Hps0), firstn_all in Hqs.
Qed.

Lemma repr_subst_keeps (n : nat) (h h' : Heap.heap) (s : nat) (sigma : list (term * term)) :
  Heap.keeps n h h' -> s < n ->
  Heap.repr_subst 0 h s sigma -> Heap.repr_subst 0 h' s sigma.
Proof.
  intros Hk Hs (ps & Hl & Hps). exists ps.
  split; [by eapply keeps_lookup | by eapply repr_pairs_keeps].
Qed.

(** One step of the second loop of [compose]. *)
Lemma restrict_step (d n m : nat) (h : Heap.heap) (v : nat) (qs : list (nat * nat))
    (tau : list (term * term)) (x : string) :
  h !! m = Some (Heap.OSubstitution qs) -> n <= m ->
  Forall2 (Heap.repr_pair n h) qs tau ->
  NoDup tau.*1 ->
  Forall (fun vt => height vt.1 <= d) tau ->
  h !! v = Some (Heap.OVariable x) ->
  exists h' qs',
    (c ← Heap.contains d m v; if c : bool then Heap.remove d m v else mret tt) h
    = Ok (tt, h')
    /\ Heap.keeps n h h'
    /\ h' !! m = Some (Heap.OSubstitution qs')
    /\ Forall2 (Heap.repr_pair n h') qs' (filter (fun vt => vt.1 ≠ Var x) tau)
    /\ (forall l, l ≠ m -> h' !! l = h !! l).
Proof.
  intros Hm Hn Hqs HN Hd Hv.
  assert (Hqs0 : Forall2 (Heap.repr_pair 0 h) qs tau)
    by (apply repr_pairs_weaken with n; [lia | done]).
  rewrite (M_bind_Ok _ _ _ _ _ (contains_store d h m v qs tau x Hv Hm Hqs0 Hd)).
  destruct (existsb _ tau) eqn:Hb.
  - destruct (remove_store d h m v qs tau x Hv Hm Hqs0 Hd) as [Hrem Hpure].
    rewrite remove_filter in Hpure by done. injection Hpure as Hpure.
    set (idx := remove_scan tau (VTerm (Var x)) 0 (-1)) in *.
    set (qs' := if negb (idx =? -1)%Z then delete (Z.to_nat idx) qs else qs) in *.
    assert (Hk : Heap.keeps n h (<[m := Heap.OSubstitution qs']> h))
      by by eapply keeps_insert.
    exists (<[m := Heap.OSubstitution qs']> h), qs'. repeat split.
    + done.
    + apply Hk.
    + apply Hk.
    + apply list_lookup_insert_eq. by eapply lookup_lt_Some.
    + rewrite Hpure. eapply repr_pairs_keeps; [exact Hk|]. unfold qs'.
      destruct (negb _); [by apply Forall2_delete | done].
    + intros l Hl. by apply list_lookup_insert_ne.
  - exists h, qs. apply bound_false_iff in Hb. rewrite filter_ne_absent by done.
    repeat split; auto.
Qed.

(** The third loop of [compose] on the store. *)
Lemma trivial_loop_store (d n ns : nat) (h : Heap.heap) (q0 : list (nat * nat)) :
  h !! ns = Some (Heap.OSubstitution q0) -> 1 <= d ->
  forall budget seen_p rest_p seen rest,
    Forall2 (Heap.repr_pair n h) seen_p seen ->
    Forall2 (Heap.repr_pair n h) rest_p rest ->
    length rest <= budget ->
    valid_subs (seen ++ rest) = true ->
    exists rest_p',
      Heap.for_of_from budget ns
        (fun vt h' =>
           match Heap.isEqual d h' vt.1 (Some vt.2) with
           | Ok true => Heap.remove d ns vt.1 h'
           | Ok false => Ok (tt, h')
           | Throw e => Throw e
           end)
        (length seen_p) (<[ns := Heap.OSubstitution (seen_p ++ rest_p)]> h)
      = Ok (tt, <[ns := Heap.OSubstitution (seen_p ++ rest_p')]> h)
      /\ Forall2 (Heap.repr_pair n h) rest_p' (trivial_pass rest).
Proof.
  intros Hns Hd1.
  assert (Hlt : ns < length h) by by eapply lookup_lt_Some.
  induction budget as [|budget IH]; intros seen_p rest_p seen rest Hseen Hrest Hlen Hv.
  - destruct rest; [|simpl in Hlen; lia]. apply Forall2_nil_inv_r in Hrest as ->.
    exists []. split; [|constructor]. simpl.
    rewrite list_lookup_insert_eq by done.
    by rewrite lookup_ge_None_2 by (rewrite app_nil_r; lia).
  - destruct Hrest as [|p [v t] rest_p rest [Hpv Hpt] Hrest].
    { exists []. split; [|constructor]. simpl.
      rewrite list_lookup_insert_eq by done.
      by rewrite lookup_ge_None_2 by (rewrite app_nil_r; lia). }
    simpl in Hpv, Hpt.
    set (hc := <[ns := Heap.OSubstitution (seen_p ++ p :: rest_p)]> h).
    assert (Hk : Heap.keeps 0 h hc) by (eapply keeps_insert; [lia | done]).
    cbn [Heap.for_of_from]. fold hc.
    assert (Hcns : hc !! ns = Some (Heap.OSubstitution (seen_p ++ p :: rest_p)))
      by by apply list_lookup_insert_eq.
    rewrite Hcns, list_lookup_middle by done.
    destruct (proj1 (valid_subs_iff _) Hv) as [HF HN].
    apply Forall_app in HF as [_ HF]. apply Forall_cons in HF as [Hvar _].
    simpl in Hvar. apply is_Var_true in Hvar as [x ->].
    rewrite fmap_app, fmap_cons in HN. apply NoDup_app in HN as (_ & _ & HN).
    apply NoDup_cons in HN as [Hx _]. simpl in Hx.
    assert (Hskip : valid_subs (seen ++ rest) = true).
    { eapply valid_subs_sublist; [|exact Hv].
      apply sublist_app; [done|]. by apply sublist_cons. }
    assert (Hall : Forall2 (Heap.repr_pair 0 hc) (seen_p ++ p :: rest_p)
                     (seen ++ (Var x, t) :: rest)).
    { eapply repr_pairs_keeps; [exact Hk|]. apply repr_pairs_weaken with n; [lia|].
      apply Forall2_app; [done|]. by constructor. }
    assert (Hkeys : Forall (fun vt : term * term => height vt.1 <= d)
                      (seen ++ (Var x, t) :: rest)).
    { apply valid_subs_iff in Hv as [HF _]. eapply Forall_impl; [exact HF|].
      intros vt [y Hy]%is_Var_true. by rewrite Hy. }
    unfold mbind at 1, Heap.M_bind at 1.
    rewrite (isEqual_sim d hc p.1 (Var x) (Some p.2) (VTerm t));
      [| eapply repr_keeps; [exact Hk|]; by eapply repr_weaken; [|exact Hpv]; lia
       | done
       | simpl; exists t; split; [|done];
         eapply repr_keeps; [exact Hk|]; by eapply repr_weaken; [|exact Hpt]; lia].
    cbn [trivial_pass]. unfold trivial at 1. cbn [fst snd].
    pose proof (Forall2_length _ _ _ Hseen) as Hlenseen.
    destruct (isEqual (Var x) (VTerm t)) eqn:Htriv.
    + destruct (remove_store d hc ns p.1 (seen_p ++ p :: rest_p)
                  (seen ++ (Var x, t) :: rest) x) as [Hrem _]; [|done..|].
      { apply repr_Var_lookup with 0. eapply repr_keeps; [exact Hk|].
        by eapply repr_weaken; [|exact Hpv]; lia. }
      rewrite remove_scan_last in Hrem by done.
      replace (Z.of_nat (length seen) =? -1)%Z with false in Hrem
        by (symmetry; apply Z.eqb_neq; lia).
      cbn [negb] in Hrem. rewrite Nat2Z.id, <-Hlenseen, delete_middle in Hrem.
      unfold hc in Hrem at 2. rewrite list_insert_insert_eq in Hrem.
      rewrite Hrem.
      destruct Hrest as [|p' wt rest_p rest Hp' Hrest].
      * exists []. split; [|constructor].
        destruct budget; simpl; rewrite list_lookup_insert_eq by done;
          by rewrite lookup_ge_None_2 by (rewrite app_nil_r; lia).
      * destruct (IH (seen_p ++ [p']) rest_p (seen ++ [wt]) rest) as (rp & Hloop & Hrp).
        -- apply Forall2_app; [done|]. constructor; [done | constructor].
        -- done.
        -- simpl in Hlen. lia.
        -- by rewrite <-app_assoc.
        -- exists (p' :: rp). split; [|by constructor].
           rewrite length_app in Hloop. simpl in Hloop.
           rewrite Nat.add_1_r, <-!app_assoc in Hloop. exact Hloop.
    + destruct (IH (seen_p ++ [p]) rest_p (seen ++ [(Var x, t)]) rest) as (rp & Hloop & Hrp).
      * apply Forall2_app; [done|]. constructor; [done | constructor].
      * done.
      * simpl in Hlen. lia.
      * by rewrite <-app_assoc.
      * exists (p :: rp). split; [|by constructor].
        rewrite length_app in Hloop. simpl in Hloop.
        rewrite Nat.add_1_r, <-!app_assoc in Hloop. exact Hloop.
Qed.

Lemma valid_key_heights (l : list (term * term)) (d : nat) :
  valid_subs l = true -> 1 <= d -> Forall (fun vt => height vt.1 <= d) l.
Proof.
  intros [HF _]%valid_subs_iff Hd. eapply Forall_impl; [exact HF|].
  intros vt [y Hy]%is_Var_true. by rewrite Hy.
Qed.

Lemma composed_nil_l (sigma : list (term * term)) :
  subs (composed (mkSubstitution []) (mkSubstitution sigma)) = sigma.
Proof. unfold composed, rewritten. simpl. apply filter_notin_nil. Qed.

Lemma filter_notin_snoc (l R : list (term * term)) (vt : term * term) :
  filter (fun wt => wt.1 ≠ vt.1) (filter (fun wt => wt.1 ∉ R.*1) l)
  = filter (fun wt => wt.1 ∉ (R ++ [vt]).*1) l.
Proof.
  rewrite list_filter_filter. apply list_filter_iff. intros wt.
  rewrite fmap_app, not_elem_of_app. simpl.
  rewrite list_elem_of_singleton. tauto.
Qed.

(** [compose] on the store: it returns a new substitution object whose
    pairs are the pairs [compose] of the value model returns, leaves every
    object that existed before as it was, and the returned pairs point to
    objects allocated during the call. *)
Lemma compose_store (d hs : nat) (h : Heap.heap) (s1 s2 : nat)
    (sigma1 sigma2 : list (term * term)) :
  Heap.repr_subst 0 h s1 sigma1 -> Heap.repr_subst 0 h s2 sigma2 ->
  valid_subs sigma1 = true -> valid_subs sigma2 = true ->
  Forall (fun vt => height vt.1 <= hs /\ height vt.2 <= hs) sigma1 ->
  Forall (fun vt => height vt.1 <= hs /\ height vt.2 <= hs) sigma2 ->
  hs + hs <= d ->
  exists h' ps,
    Heap.compose d s1 s2 h = Ok (length h, h')
    /\ Heap.keeps (length h) h h'
    /\ h' !! length h = Some (Heap.OSubstitution ps)
    /\ Forall2 (Heap.repr_pair (length h) h') ps
         (subs (composed (mkSubstitution sigma1) (mkSubstitution sigma2))).
Proof.
  intros (ps1 & Hs1 & Hps1) Hsig2 Hv1 Hv2 Hh1 Hh2 Hd.
  pose proof Hsig2 as (ps2 & Hs2 & Hps2).
  assert (Hd2 : Forall (fun vt : term * term => height vt.1 <= d /\ height vt.2 <= d) sigma2).
  { eapply Forall_impl; [exact Hh2|]. simpl. intros vt [? ?]. lia. }
  unfold Heap.compose, Heap.is_Substitution. rewrite Hs2, Hs1. cbn [negb].
  pose proof (Forall2_length _ _ _ Hps1) as Hlen1.
  destruct (length ps1 =? 0) eqn:Hz.
  { apply Nat.eqb_eq in Hz. rewrite Hz in Hlen1. symmetry in Hlen1.
    apply nil_length_inv in Hlen1. subst sigma1. rewrite composed_nil_l.
    by apply cloneSubstitution_store. }
  set (ns := length h).
  assert (Hs1_lt : s1 < ns) by by eapply lookup_lt_Some.
  assert (Hs2_lt : s2 < ns) by by eapply lookup_lt_Some.
  set (R := rewritten (mkSubstitution sigma1) (mkSubstitution sigma2)).
  assert (HvR : valid_subs R = true).
  { erewrite valid_subs_keys; [exact Hv1|]. apply rewritten_keys. }
  assert (Hd1 : 1 <= d).
  { destruct sigma1 as [|[v1 t1] ?]; [simpl in Hlen1; by rewrite Hlen1 in Hz|].
    apply Forall_cons in Hh1 as [[Hv _] _]. pose proof (height_pos v1).
    simpl in Hv. lia. }
  pose proof (valid_key_heights R d HvR Hd1) as HdR.
  (* first loop *)
  pose (Inv1 := fun (i : nat) (hc : Heap.heap) =>
    Heap.keeps ns h hc /\
    exists qs, hc !! ns = Some (Heap.OSubstitution qs)
               /\ Forall2 (Heap.repr_pair ns hc) qs (take i R)).
  destruct (for_of_rule Inv1 s1 ps1
              (fun vt => v ← Heap.cloneTerm d vt.1; t ← Heap.apply d s2 vt.2;
                         Heap.add d ns v t)) with (h := h ++ [Heap.OSubstitution []])
    as (h1 & Hloop1 & [Hk1 (Rp & Hns1 & HRp)]).
  { intros i hc [Hk _]. by eapply keeps_lookup. }
  { intros i hc p [Hk (qs & Hns & Hqs)] Hp.
    destruct (Forall2_lookup_l _ _ _ _ _ Hps1 Hp) as ([v t] & Hvt & Hpv & Hpt).
    simpl in Hpv, Hpt.
    destruct (valid_subs_lookup _ _ _ Hv1 Hvt) as [[x Hx] _]. simpl in Hx. subst v.
    assert (HRi : R !! i = Some (Var x, subst sigma2 t)).
    { unfold R, rewritten. cbn [subs]. by rewrite list_lookup_fmap, Hvt. }
    destruct (valid_subs_lookup _ _ _ HvR HRi) as [_ Hfresh]. simpl in Hfresh.
    pose proof Hh1 as Hh1'. rewrite Forall_forall in Hh1'.
    destruct (Hh1' _ (list_elem_of_lookup_2 _ _ _ Hvt)) as [Hd1a Hd1b].
    cbn [fst snd] in Hd1a, Hd1b.
    destruct (allocs_inv _ hc (Var x) (cloneTerm_allocs d hc p.1 (Var x)
                (repr_keeps _ _ _ _ _ _ Hk Hpv) ltac:(lia)))
      as (r1 & hc1 & Hc1 & Hkc1 & Hl1 & Hr1).
    assert (Hkc : Heap.keeps ns h hc1) by (eapply keeps_trans; [exact Hk | apply Hkc1]).
    destruct (allocs_inv _ hc1 (subst sigma2 t)
                (apply_allocs d hs hc1 s2 p.2 sigma2 t
                   (repr_subst_keeps _ _ _ _ _ Hkc Hs2_lt Hsig2) Hh2
                   (repr_keeps _ _ _ _ _ _ Hkc Hpt) ltac:(lia)))
      as (r2 & hc2 & Hc2 & Hkc2 & Hl2 & Hr2).
    pose proof (keeps_length _ _ _ Hk) as Hlen.
    pose proof (keeps_length _ _ _ (Hkc1 0)) as Hlenc1.
    destruct (add_step d ns ns hc2 r1 r2 qs (take i R) x (subst sigma2 t))
      as (hc3 & Hadd & Hkc3 & Hns3 & Hqs3 & _).
    - auto.
    - done.
    - eapply repr_pairs_keeps; [apply (Hkc2 ns)|].
      eapply repr_pairs_keeps; [apply (Hkc1 ns)|]. done.
    - eapply repr_keeps; [apply (Hkc2 ns)|]. eapply repr_weaken; [|exact Hr1]. lia.
    - eapply repr_weaken; [|exact Hr2]. lia.
    - by apply Forall_take.
    - done.
    - exists hc3. split.
      + run Hc1. by run Hc2.
      + split.
        * eapply keeps_trans; [exact Hkc|]. eapply keeps_trans; [apply Hkc2|]. done.
        * exists (qs ++ [(r1, r2)]). split; [done|].
          by rewrite (take_S_r _ _ _ HRi). }
  { split; [apply keeps_app|]. exists []. split.
    - by rewrite lookup_app_r, Nat.sub_diag.
    - rewrite take_0. constructor. }
  assert (HlenR : length R = length ps1).
  { unfold R, rewritten. cbn [subs]. by rewrite length_map. }
  rewrite <-HlenR, firstn_all in HRp.
  (* the copy of sigma *)
  destruct (cloneSubstitution_store d h1 s2 sigma2) as (h2 & Sp & Hclone & Hk2 & Hm2 & HSp);
    [by eapply repr_subst_keeps | done | done |].
  set (m := length h1) in *.
  pose proof (keeps_length _ _ _ Hk1) as Hlenh1.
  assert (Hns_m : ns < m) by by eapply lookup_lt_Some.
  assert (Hns2 : h2 !! ns = Some (Heap.OSubstitution Rp)) by by eapply keeps_lookup.
  assert (Hk02 : Heap.keeps ns h h2).
  { eapply keeps_trans; [exact Hk1|]. destruct Hk2 as [Hl Hk2]. split; [done|].
    intros l o Hlo Ho. apply Hk2; [done|]. left. by eapply lookup_lt_Some. }
  (* second loop *)
  pose (Inv2 := fun (i : nat) (hc : Heap.heap) =>
    Heap.keeps ns h hc /\ Heap.keeps ns h2 hc /\
    hc !! ns = Some (Heap.OSubstitution Rp) /\
    exists qs, hc !! m = Some (Heap.OSubstitution qs)
               /\ Forall2 (Heap.repr_pair ns hc) qs
                    (filter (fun vt => vt.1 ∉ (take i R).*1) sigma2)).
  destruct (for_of_rule Inv2 ns Rp
              (fun vt => c ← Heap.contains d m vt.1;
                         if c : bool then Heap.remove d m vt.1 else mret tt))
    with (h := h2) as (h3 & Hloop2 & (Hk03 & Hk23 & Hns3 & Sp' & Hm3 & HSp')).
  { by intros i hc (_ & _ & Hns & _). }
  { intros i hc p (Hk0 & Hk2c & Hns & qs & Hm & Hqs) Hp.
    destruct (Forall2_lookup_l _ _ _ _ _ HRp Hp) as ([v t] & HRi & Hpv & _).
    simpl in Hpv.
    destruct (valid_subs_lookup _ _ _ HvR HRi) as [[x Hx] _]. simpl in Hx. subst v.
    destruct (restrict_step d ns m hc p.1 qs
                (filter (fun vt => vt.1 ∉ (take i R).*1) sigma2) x)
      as (hc' & qs' & Hstep & Hkc & Hm' & Hqs' & Hother); [done | lia | done | | | |].
    - apply valid_subs_iff in Hv2 as [_ HN].
      eapply sublist_NoDup; [exact HN|]. apply fmap_sublist, sublist_filter.
    - apply Forall_forall. intros vt [_ Hin]%list_elem_of_filter.
      rewrite Forall_forall in Hd2. by destruct (Hd2 vt Hin).
    - apply repr_Var_lookup with ns. eapply repr_keeps; [exact Hk2c|].
      by eapply repr_keeps; [apply Hk2|].
    - exists hc'. split; [done|]. repeat split.
      + eapply keeps_trans; [exact Hk0|]. apply Hkc.
      + eapply keeps_trans; [exact Hk0|]. apply Hkc.
      + eapply keeps_trans; [exact Hk2c|]. apply Hkc.
      + eapply keeps_trans; [exact Hk2c|]. apply Hkc.
      + rewrite Hother by lia. done.
      + exists qs'. split; [done|].
        rewrite (take_S_r _ _ _ HRi).
        by rewrite <-(filter_notin_snoc sigma2 (take i R) (Var x, t)). }
  { split; [exact Hk02|]. split; [apply keeps_refl|]. split; [done|].
    exists Sp. split; [done|]. rewrite take_0. simpl. rewrite filter_notin_nil.
    apply repr_pairs_weaken with m; [lia | done]. }
  rewrite (Forall2_length _ _ _ HRp), firstn_all in HSp'.
  set (S0 := filter (fun vt => vt.1 ∉ R.*1) sigma2) in *.
  set (T := trivial_pass R).
  assert (HvTS : valid_subs (T ++ S0) = true).
  { pose proof (composed_valid (mkSubstitution sigma1) (mkSubstitution sigma2) Hv1 Hv2)
      as Hc. unfold valid, composed in Hc. cbn [subs] in Hc.
    unfold T, S0, R. by rewrite rewritten_keys. }
  (* third loop *)
  assert (HRp3 : Forall2 (Heap.repr_pair ns h3) Rp R).
  { eapply repr_pairs_keeps; [exact Hk23|]. by eapply repr_pairs_keeps; [exact Hk2|]. }
  destruct (trivial_loop_store d ns ns h3 Rp Hns3 Hd1 (length Rp) [] Rp [] R)
    as (Tp & Hloop3 & HTp); [constructor | done | | done |].
  { by rewrite (Forall2_length _ _ _ HRp3). }
  simpl in Hloop3. rewrite (list_insert_id h3 ns _ Hns3) in Hloop3.
  set (h4 := <[ns := Heap.OSubstitution Tp]> h3) in *.
  assert (Hk34 : Heap.keeps ns h3 h4) by by eapply keeps_insert.
  assert (Hns4 : h4 !! ns = Some (Heap.OSubstitution Tp)).
  { apply list_lookup_insert_eq. by eapply lookup_lt_Some. }
  assert (Hm4 : h4 !! m = Some (Heap.OSubstitution Sp')).
  { unfold h4. rewrite list_lookup_insert_ne by lia. done. }
  (* fourth loop *)
  pose (Inv4 := fun (i : nat) (hc : Heap.heap) =>
    Heap.keeps ns h hc /\ Heap.keeps ns h3 hc /\
    hc !! m = Some (Heap.OSubstitution Sp') /\
    exists qs, hc !! ns = Some (Heap.OSubstitution qs)
               /\ Forall2 (Heap.repr_pair ns hc) qs (T ++ take i S0)).
  destruct (for_of_rule Inv4 m Sp' (fun vt => Heap.add d ns vt.1 vt.2))
    with (h := h4) as (h5 & Hloop4 & (Hk05 & Hk35 & Hm5 & ps & Hns5 & Hps)).
  { by intros i hc (_ & _ & Hm & _). }
  { intros i hc p (Hk0 & Hk3c & Hm & qs & Hns & Hqs) Hp.
    destruct (Forall2_lookup_l _ _ _ _ _ HSp' Hp) as ([v t] & HSi & Hpv & Hpt).
    simpl in Hpv, Hpt.
    assert (HTSi : (T ++ S0) !! (length T + i) = Some (v, t)).
    { rewrite lookup_app_r by lia. by replace (length T + i - length T) with i by lia. }
    destruct (valid_subs_lookup _ _ _ HvTS HTSi) as [[x Hx] Hfresh].
    simpl in Hx. subst v. simpl in Hfresh.
    rewrite take_app_add in Hfresh.
    destruct (add_step d ns ns hc p.1 p.2 qs (T ++ take i S0) x t)
      as (hc' & Hadd & Hkc & Hns' & Hqs' & Hother); [done | lia | done | | | | |].
    - by eapply repr_keeps; [exact Hk3c|].
    - by eapply repr_keeps; [exact Hk3c|].
    - apply valid_key_heights; [|done]. eapply valid_subs_sublist; [|exact HvTS].
      apply sublist_app; [done | apply sublist_take].
    - done.
    - exists hc'. split; [done|].
      split; [by eapply keeps_trans; [exact Hk0|]|].
      split; [by eapply keeps_trans; [exact Hk3c|]|].
      split; [rewrite Hother by lia; done|].
      exists (qs ++ [p]). split; [by destruct p|].
      rewrite (take_S_r _ _ _ HSi), app_assoc. by destruct p. }
  { split; [by eapply keeps_trans; [exact Hk03|]|]. split; [done|]. split; [done|].
    exists Tp. split; [done|]. rewrite take_0, app_nil_r.
    by eapply repr_pairs_keeps; [exact Hk34|]. }
  rewrite (Forall2_length _ _ _ HSp'), firstn_all in Hps.
  exists h5, ps.
  rewrite (M_bind_Ok _ _ h (h ++ [Heap.OSubstitution []]) (length h) eq_refl).
  fold ns. run Hloop1.
  fold m in Hclone. run Hclone.
  run Hloop2.
  assert (Hfor3 : Heap.for_of ns
    (fun vt h' =>
       match Heap.isEqual d h' vt.1 (Some vt.2) with
       | Ok true => Heap.remove d ns vt.1 h'
       | Ok false => Ok (tt, h')
       | Throw e => Throw e
       end) h3 = Ok (tt, h4)).
  { unfold Heap.for_of. by rewrite Hns3. }
  run Hfor3.
  run Hloop4.
  split; [done|]. split; [done|]. split; [done|].
  unfold composed. cbn [subs]. fold R.
  pose proof (rewritten_keys (mkSubstitution sigma1) (mkSubstitution sigma2)) as HRk.
  cbn [subs] in HRk. fold R in HRk. rewrite <-HRk. exact Hps.
Qed.

(** ** From and to the reading functions *)

Lemma read_pair_repr (n d : nat) (h : Heap.heap) (p : nat * nat) (vt : term * term) :
  Heap.read_pair n d h p = Some vt ->
  Heap.repr_pair n h p vt /\ (height vt.1 <= d /\ height vt.2 <= d).
Proof.
  unfold Heap.read_pair. destruct (Heap.read_from n d h p.1) as [v|] eqn:H1; [|done].
  destruct (Heap.read_from n d h p.2) as [t|] eqn:H2; [|done].
  simpl. intros [= <-]. apply read_from_repr in H1 as [? ?], H2 as [? ?].
  by repeat split.
Qed.

Lemma repr_read_pair (n d : nat) (h : Heap.heap) (p : nat * nat) (vt : term * term) :
  Heap.repr_pair n h p vt -> height vt.1 <= d -> height vt.2 <= d ->
  Heap.read_pair n d h p = Some vt.
Proof.
  intros [H1 H2] Hd1 Hd2. unfold Heap.read_pair.
  rewrite (repr_read_from _ _ _ _ _ H1 Hd1), (repr_read_from _ _ _ _ _ H2 Hd2).
  by destruct vt.
Qed.

Lemma read_subst_repr (d : nat) (h : Heap.heap) (s : nat) (sigma : Substitution) :
  Heap.read_subst 0 d h s = Some sigma ->
  Heap.repr_subst 0 h s (subs sigma)
  /\ Forall (fun vt => height vt.1 <= d /\ height vt.2 <= d) (subs sigma).
Proof.
  unfold Heap.read_subst. destruct (h !! s) as [[| | |ps]|] eqn:Hs; try done.
  simpl. destruct (mapM (Heap.read_pair 0 d h) ps) as [l|] eqn:Hm; [|done].
  simpl. intros [= <-]. cbn [subs]. apply mapM_Some in Hm.
  assert (Hall : Forall2 (fun p vt => Heap.repr_pair 0 h p vt
                            /\ (height vt.1 <= d /\ height vt.2 <= d)) ps l).
  { eapply Forall2_impl; [exact Hm|]. intros. by apply read_pair_repr. }
  split.
  - exists ps. split; [done|]. eapply Forall2_impl; [exact Hall|]. by intros ?? [? ?].
  - eapply Forall2_Forall_r; [exact Hall|]. apply Forall_true. by intros ?? [? ?].
Qed.

Lemma repr_read_subst (n : nat) (h : Heap.heap) (s : nat) (ps : list (nat * nat))
    (sigma : list (term * term)) :
  n <= s -> h !! s = Some (Heap.OSubstitution ps) ->
  Forall2 (Heap.repr_pair n h) ps sigma ->
  Heap.read_subst n (pairs_height sigma) h s = Some (mkSubstitution sigma).
Proof.
  intros Hn Hs Hps. unfold Heap.read_subst. rewrite Hs.
  apply Nat.ltb_ge in Hn. rewrite Hn.
  assert (Hm : mapM (Heap.read_pair n (pairs_height sigma) h) ps = Some sigma).
  { apply mapM_Some. apply Forall2_same_length_lookup. split.
    - by apply Forall2_length in Hps.
    - intros i p vt Hp Hvt.
      assert (Nat.max (height vt.1) (height vt.2) <= pairs_height sigma).
      { apply max_list_elem_of_le.
        apply (list_elem_of_fmap_2 (fun vt => Nat.max (height vt.1) (height vt.2))).
        by eapply list_elem_of_lookup_2. }
      apply repr_read_pair; [by eapply Forall2_lookup_lr | lia | lia]. }
  by rewrite Hm.
Qed.

(** C8.  Let the store [h] hold at [s] a substitution object reading as
    [sigma].  (1) For every term object [t] of [h], reading as [tm],
    [s.apply(t)] returns a pointer [r] in a store [h'] of which [h] is a
    prefix, so every object that existed before the call (the receiver,
    its pairs, the argument and all its subterms) is as it was, and [r]
    reads as [subst sigma tm] through objects allocated by the call only.
    (2) For every substitution object [s'] of [h] reading as [sigma'], with
    [sigma] and [sigma'] valid, [s.compose(s')] returns a pointer [r] in a
    store [h'] of which [h] is a prefix, and [r] is a substitution object
    allocated by the call whose pairs, read through objects allocated by
    the call only, are the pairs [compose] returns on values. *)
Theorem apply_compose_frame (d : nat) (h : Heap.heap) (s : nat) (sigma : Substitution) :
  Heap.read_subst 0 d h s = Some sigma ->
  (forall t tm,
      Heap.read_from 0 d h t = Some tm ->
      exists r h' d',
        Heap.apply (d + d) s t h = Ok (r, h')
        /\ h `prefix_of` h'
        /\ Heap.read_from (length h) d' h' r = Some (subst (subs sigma) tm)
        /\ apply sigma (VTerm tm) = Ok (subst (subs sigma) tm))
  /\ (forall s' sigma',
        Heap.read_subst 0 d h s' = Some sigma' ->
        valid sigma = true -> valid sigma' = true ->
        exists r h' d',
          Heap.compose (d + d) s s' h = Ok (r, h')
          /\ h `prefix_of` h'
          /\ Heap.read_subst (length h) d' h' r = Some (composed sigma sigma')
          /\ compose sigma (VSubstitution sigma') = Ok (composed sigma sigma')).
Proof.
  intros [Hs Hhs]%read_subst_repr. split.
  - intros t tm [Ht Htm]%read_from_repr.
    destruct (apply_allocs (d + d) d h s t (subs sigma) tm Hs Hhs Ht ltac:(lia))
      as (r & k & Happ & _ & Hr).
    exists r, (h ++ k), (height (subst (subs sigma) tm)).
    repeat split; [done | by apply prefix_app_r | by apply repr_read_from
                  | apply apply_subst].
  - intros s' sigma' [Hs' Hhs']%read_subst_repr Hv Hv'.
    destruct (compose_store (d + d) d h s s' (subs sigma) (subs sigma')
                Hs Hs' Hv Hv' Hhs Hhs' ltac:(lia)) as (h' & ps & Hc & Hk & Hl & Hps).
    exists (length h), h', (pairs_height (subs (composed sigma sigma'))).
    assert (Heq : composed (mkSubstitution (subs sigma)) (mkSubstitution (subs sigma'))
                  = composed sigma sigma') by (by destruct sigma, sigma').
    rewrite Heq in Hps.
    repeat split; [done | by apply keeps_prefix | | by apply compose_valid].
    rewrite (repr_read_subst (length h) h' (length h) ps _ ltac:(lia) Hl Hps).
    by destruct (composed sigma sigma').
Qed.

Lemma apply_compose_frame_witness :
  let sigma1 := mkSubstitution [(Var "x", FuncTerm (mkFunc "g" 2) [Var "y"; Constant "c"])] in
  let sigma2 := mkSubstitution [(Var "y", Constant "a")] in
  (exists r h' d',
      Heap.apply 4 6 4 example_store = Ok (r, h')
      /\ example_store `prefix_of` h'
      /\ Heap.read_from 7 d' h' r
         = Some (subst (subs sigma2) (FuncTerm (mkFunc "g" 2) [Var "y"; Constant "c"]))
      /\ apply sigma2 (VTerm (FuncTerm (mkFunc "g" 2) [Var "y"; Constant "c"]))
         = Ok (subst (subs sigma2) (FuncTerm (mkFunc "g" 2) [Var "y"; Constant "c"])))
  /\ (exists r h' d',
        Heap.compose 4 5 6 example_store = Ok (r, h')
        /\ example_store `prefix_of` h'
        /\ Heap.read_subst 7 d' h' r = Some (composed sigma1 sigma2)
        /\ compose sigma1 (VSubstitution sigma2) = Ok (composed sigma1 sigma2)).
Proof.
  split.
  - apply (proj1 (apply_compose_frame 2 example_store 6
                    (mkSubstitution [(Var "y", Constant "a")]) eq_refl)
             4 (FuncTerm (mkFunc "g" 2) [Var "y"; Constant "c"])).
    reflexivity.
  - apply (proj2 (apply_compose_frame 2 example_store 5
                    (mkSubstitution
                       [(Var "x", FuncTerm (mkFunc "g" 2) [Var "y"; Constant "c"])])
                    eq_refl)
             6 (mkSubstitution [(Var "y", Constant "a")])); reflexivity.
Defined.
End heap_facts.

(** * Further properties of the code *)

(** ** Structural equality *)

Lemma isEqual_Constant_l (c : string) (t : term) :
  isEqual (Constant c) (VTerm t) = true <-> t = Constant c.
Proof.
  destruct t as [n|n|f a]; simpl; [done| |done].
  rewrite String.eqb_eq. split; congruence.
Qed.

(** X1.  [isEqual] is reflexive: every term equals itself, and so equals its
    copy by [cloneTerm]. *)
Theorem isEqual_refl (t : term) :
  isEqual t (VTerm t) = true /\
  exists c, cloneTerm (VTerm t) = Ok c /\ isEqual t (VTerm c) = true.
Proof.
  assert (Hrefl : forall u, isEqual u (VTerm u) = true).
  { induction u as [x|c|f a IH] using term_ind'.
    - by apply isEqual_Var_r.
    - by apply isEqual_Constant_l.
    - apply isEqual_FuncTerm_prefix. exists a, []. split; [by rewrite app_nil_r|].
      induction IH; constructor; auto. }
  split; [done|]. exists t. by rewrite cloneTerm_id.
Qed.




(** X3.  What [isEqual] decides.  It holds of a [Variable] (a [Constant])
    exactly for a [Variable] (a [Constant]) of the same name; of an
    application exactly for an application whose first arguments equal, one
    by one, all the arguments of the receiver; never between terms of
    different classes, and never for a value that is not a term. *)
Theorem isEqual_decides (t : term) (v : value) :
  isEqual t v = true <->
  match t, v with
  | Var x, VTerm (Var y) => x = y
  | Constant c, VTerm (Constant c') => c = c'
  | FuncTerm _ a, VTerm (FuncTerm _ b) =>
      exists b1 b2, b = b1 ++ b2
                    /\ Forall2 (fun x y => isEqual x (VTerm y) = true) a b1
  | _, _ => False
  end.
Proof.
  destruct t as [x|c|f a]; destruct v as [| | | | |[y|c'|g b]| |];
    try (simpl; split; [discriminate | done]).
  - rewrite isEqual_Var_l. split; congruence.
  - rewrite isEqual_Constant_l. split; congruence.
  - apply isEqual_FuncTerm_prefix.
Qed.

(** X4.  [Func.isEqual] holds exactly of the [Func] with the same name and
    the same arity. *)
Theorem Func_isEqual_iff (f : Func) (v : value) :
  Func_isEqual f v = true <-> v = VFunc f.
Proof.
  destruct f as [n a]. destruct v as [| | | |[m b]| | |]; simpl;
    try (split; [discriminate | done]).
  rewrite andb_true_iff, String.eqb_eq, Z.eqb_eq. split; [intros [-> ->]; done|].
  by intros [= -> ->].
Qed.

(** ** Copies and constructors *)

(** X5.  [cloneTerm] returns a term equal to its argument, and throws, with
    "Argument must be of type Term", exactly when the argument is not a
    term. *)
Theorem cloneTerm_copies (v : value) :
  match cloneTerm v with
  | Ok t => v = VTerm t
  | Throw e => e = ArgumentNotTerm /\ isTerm v = false
  end.
Proof. destruct v; simpl; try done. by rewrite cloneTerm_of_id. Qed.

Lemma as_term_all (args : list value) :
  forallb isTerm args = true -> map VTerm (omap as_term args) = args.
Proof.
  induction args as [|a l IH]; [done|]. intros Hall. simpl in Hall.
  apply andb_true_iff in Hall as [Ha Hl]. destruct a; try done.
  cbn [omap list_omap as_term map]. by rewrite (IH Hl).
Qed.

(** X6.  Calling a symbol succeeds exactly when the number of arguments is
    the arity and every argument is a term; the term returned has the symbol
    and these arguments.  With the right number of arguments of which one is
    not a term it throws "args must be an array of terms"; the count is
    checked first. *)
Theorem call_succeeds_iff (f : Func) (args : list value) :
  (forall t, _call f args = Ok t <->
             Z.of_nat (length args) = arity f /\ exists ts, args = map VTerm ts
                                                        /\ t = FuncTerm f ts) /\
  (Z.of_nat (length args) = arity f -> forallb isTerm args = false ->
   _call f args = Throw ArgsNotArrayOfTerms).
Proof.
  split.
  - intros t. unfold _call. destruct (Z.of_nat (length args) =? arity f) eqn:Hlen.
    + apply Z.eqb_eq in Hlen. cbn [negb]. rewrite new_Func_fields, bind_Ok.
      split.
      * unfold new_FuncTerm. destruct (forallb isTerm args) eqn:Hall; [|done].
        intros [= <-]. split; [done|]. exists (omap as_term args).
        by rewrite as_term_all.
      * intros [_ (ts & -> & ->)]. apply new_FuncTerm_terms.
    + apply Z.eqb_neq in Hlen. cbn [negb]. split; [done|]. by intros [? _].
  - intros Hlen Hall. unfold _call. apply Z.eqb_eq in Hlen. rewrite Hlen. cbn [negb].
    rewrite new_Func_fields, bind_Ok. unfold new_FuncTerm. by rewrite Hall.
Qed.

Lemma call_succeeds_iff_witness :
  _call (mkFunc "g" 2) [VTerm (Var "y"); VString "c"] = Throw ArgsNotArrayOfTerms.
Proof.
  apply (proj2 (call_succeeds_iff (mkFunc "g" 2) [VTerm (Var "y"); VString "c"]));
    reflexivity.
Defined.

(** X7.  A symbol of negative arity, which [new Func] accepts, can never be
    called: every call throws "Wrong number of arguments". *)
Theorem negative_arity_never_called (f : Func) (args : list value) :
  arity f < 0 ->
  _call f args = Throw (WrongNumberOfArguments (arity f) (length args)).
Proof.
  intros Hneg. unfold _call.
  replace (Z.of_nat (length args) =? arity f) with false; [done|].
  symmetry. apply Z.eqb_neq. lia.
Qed.

Lemma negative_arity_never_called_witness :
  exists f, new_Func (VString "f") (VInteger (-1)) = Ok f /\
            _call f [] = Throw (WrongNumberOfArguments (-1) 0).
Proof.
  exists (mkFunc "f" (-1)). split; [reflexivity|].
  apply (negative_arity_never_called (mkFunc "f" (-1)) []). simpl. lia.
Defined.

(** ** The invariant of substitutions *)

(** X8.  The substitutions obtained from [new Substitution()] by any run of
    successful [add] and [remove] calls are exactly those whose keys are
    [Variable]s, no two of them equal. *)
Theorem built_iff_valid (s : Substitution) : built s <-> valid s = true.
Proof. split; [apply built_valid | apply valid_built]. Qed.

(** ** add, remove, contains, apply *)

(** X9.  With a [Variable] and a term as arguments, [add] throws "Variable
    already exists in substitution" exactly when [contains] holds of the
    variable; the argument checks come first, the variable before the
    term. *)
Theorem add_duplicate_iff (s : Substitution) (x : string) (t : term) :
  (add s (VTerm (Var x)) (VTerm t) = Throw VariableAlreadyExists
   <-> contains s (VTerm (Var x)) = Ok true) /\
  (forall v u, (forall y, v ≠ VTerm (Var y)) -> add s v u = Throw FirstArgumentNotVariable) /\
  (forall u, isTerm u = false -> add s (VTerm (Var x)) u = Throw SecondArgumentNotTerm).
Proof.
  repeat split.
  - unfold add, contains. by destruct (existsb _ _).
  - unfold add, contains. intros [= ->]. done.
  - intros v u Hv. destruct v as [| | | | |[y| |]| |]; try done. by destruct (Hv y).
  - intros u Hu. by destruct u.
Qed.

Lemma find_unbound (l : list (term * term)) (x : string) :
  Var x ∉ l.*1 -> find (fun vt => isEqual vt.1 (VTerm (Var x))) l = None.
Proof.
  induction l as [|vt l IH]; [done|]. rewrite fmap_cons, not_elem_of_cons.
  intros [Hne Hx]. simpl. destruct (isEqual vt.1 (VTerm (Var x))) eqn:He.
  - apply isEqual_Var_r in He. congruence.
  - by apply IH.
Qed.

Lemma find_bound (l : list (term * term)) (x : string) (t : term) :
  NoDup l.*1 -> (Var x, t) ∈ l ->
  find (fun vt => isEqual vt.1 (VTerm (Var x))) l = Some (Var x, t).
Proof.
  induction l as [|[v u] l IH]; intros HN Hin; [by apply elem_of_nil in Hin|].
  rewrite fmap_cons in HN. apply NoDup_cons in HN as [Hv HN]. simpl in Hv. simpl.
  apply elem_of_cons in Hin as [[= <- <-]|Hin].
  - by rewrite (proj2 (isEqual_Var_r (Var x) x) eq_refl).
  - destruct (isEqual v (VTerm (Var x))) eqn:He.
    + apply isEqual_Var_r in He as ->. exfalso. apply Hv.
      by apply (list_elem_of_fmap_2 fst _ (Var x, t)).
    + by apply IH.
Qed.

Lemma find_app_unbound (l k : list (term * term)) (x : string) :
  Var x ∉ l.*1 ->
  find (fun vt => isEqual vt.1 (VTerm (Var x))) (l ++ k)
  = find (fun vt => isEqual vt.1 (VTerm (Var x))) k.
Proof.
  induction l as [|vt l IH]; [done|]. rewrite fmap_cons, not_elem_of_cons.
  intros [Hne Hx]. simpl. destruct (isEqual vt.1 (VTerm (Var x))) eqn:He.
  - apply isEqual_Var_r in He. congruence.
  - by apply IH.
Qed.

Lemma find_other_key (l : list (term * term)) (x y : string) (t : term) :
  x ≠ y ->
  find (fun vt => isEqual vt.1 (VTerm (Var y))) (l ++ [(Var x, t)])
  = find (fun vt => isEqual vt.1 (VTerm (Var y))) l.
Proof.
  intros Hxy. induction l as [|vt l IH]; simpl.
  - assert (He : (y =? x)%string = false) by (apply String.eqb_neq; congruence).
    by rewrite He.
  - by destruct (isEqual vt.1 (VTerm (Var y))).
Qed.

(** X10.  After a successful [s.add(x, t)]: [contains(x)] holds, [apply(x)]
    returns [t], and [apply] on any other variable returns what it returned
    before. *)
Theorem add_then_apply (s s' : Substitution) (x : string) (t : term) :
  add s (VTerm (Var x)) (VTerm t) = Ok s' ->
  contains s' (VTerm (Var x)) = Ok true /\
  apply s' (VTerm (Var x)) = Ok t /\
  forall y, y ≠ x -> apply s' (VTerm (Var y)) = apply s (VTerm (Var y)).
Proof.
  intros (x' & t' & [= <-] & [= <-] & Hx & ->)%add_Ok_inv. repeat split.
  - simpl. f_equal. apply bound_iff. rewrite fmap_app. apply elem_of_app. right.
    simpl. apply list_elem_of_here.
  - rewrite apply_subst. cbn [subs subst]. rewrite find_app_unbound by done.
    simpl. by rewrite String.eqb_refl.
  - intros y Hy. rewrite !apply_subst. cbn [subs subst].
    by rewrite find_other_key by congruence.
Qed.

Lemma add_then_apply_witness :
  let s' := mkSubstitution [(Var "y", Constant "a"); (Var "x", Var "y")] in
  contains s' (VTerm (Var "x")) = Ok true /\
  apply s' (VTerm (Var "x")) = Ok (Var "y") /\
  forall y, y ≠ "x" ->
            apply s' (VTerm (Var y))
            = apply (mkSubstitution [(Var "y", Constant "a")]) (VTerm (Var y)).
Proof.
  apply (add_then_apply (mkSubstitution [(Var "y", Constant "a")])
           (mkSubstitution [(Var "y", Constant "a"); (Var "x", Var "y")])
           "x" (Var "y")).
  reflexivity.
Defined.

(** X11.  [remove] undoes [add]: after a successful [s.add(x, t)],
    [remove(x)] gives back the substitution as it was. *)
Theorem add_then_remove (s s' : Substitution) (x : string) (t : term) :
  add s (VTerm (Var x)) (VTerm t) = Ok s' ->
  remove s' (VTerm (Var x)) = Ok s.
Proof.
  intros (x' & t' & [= <-] & [= <-] & Hx & ->)%add_Ok_inv.
  rewrite (remove_last (subs s) [] x t) by apply not_elem_of_nil.
  rewrite app_nil_r. by destruct s.
Qed.

Lemma add_then_remove_witness :
  remove (mkSubstitution [(Var "y", Constant "a"); (Var "x", Var "y")]) (VTerm (Var "x"))
  = Ok (mkSubstitution [(Var "y", Constant "a")]).
Proof.
  apply (add_then_remove (mkSubstitution [(Var "y", Constant "a")])
           (mkSubstitution [(Var "y", Constant "a"); (Var "x", Var "y")])
           "x" (Var "y")).
  reflexivity.
Defined.

(** X12.  On a valid substitution [remove(x)] returns, the variable is no
    longer bound afterwards ([contains] fails and [apply] leaves [x] as it
    is), the pairs of the other variables are kept in their order, and the
    result is valid. *)
Theorem remove_unbinds (s : Substitution) (x : string) :
  valid s = true ->
  exists s',
    remove s (VTerm (Var x)) = Ok s' /\
    subs s' = filter (fun vt => vt.1 ≠ Var x) (subs s) /\
    contains s' (VTerm (Var x)) = Ok false /\
    apply s' (VTerm (Var x)) = Ok (Var x) /\
    valid s' = true.
Proof.
  intros Hv. destruct s as [l]. unfold valid in Hv. cbn [subs] in *.
  pose proof (proj1 (valid_subs_iff l) Hv) as [_ HN].
  exists (mkSubstitution (filter (fun vt => vt.1 ≠ Var x) l)).
  assert (Hout : Var x ∉ (filter (fun vt : term * term => vt.1 ≠ Var x) l).*1).
  { intros (vt & Hk & [Hne _]%list_elem_of_filter)%list_elem_of_fmap. by apply Hne. }
  repeat split.
  - by apply remove_filter.
  - simpl. f_equal. by apply bound_false_iff.
  - rewrite apply_subst. cbn [subs subst]. by rewrite find_unbound.
  - unfold valid. cbn [subs]. eapply valid_subs_sublist; [apply sublist_filter | done].
Qed.

Lemma remove_unbinds_witness :
  exists s',
    remove (mkSubstitution [(Var "x", Constant "a"); (Var "y", Var "x")]) (VTerm (Var "x"))
    = Ok s' /\
    subs s' = filter (fun vt => vt.1 ≠ Var "x")
                (subs (mkSubstitution [(Var "x", Constant "a"); (Var "y", Var "x")])) /\
    contains s' (VTerm (Var "x")) = Ok false /\
    apply s' (VTerm (Var "x")) = Ok (Var "x") /\
    valid s' = true.
Proof.
  apply (remove_unbinds (mkSubstitution [(Var "x", Constant "a"); (Var "y", Var "x")]) "x").
  reflexivity.
Defined.

(** X13.  [remove] of a variable that is not bound changes nothing; [remove]
    and [contains] throw when given anything but a [Variable]. *)
Theorem remove_absent_noop (s : Substitution) (x : string) :
  contains s (VTerm (Var x)) = Ok false ->
  remove s (VTerm (Var x)) = Ok s /\
  forall v, (forall y, v ≠ VTerm (Var y)) ->
            remove s v = Throw ArgumentNotVariable /\
            contains s v = Throw ContainsNotVariable.
Proof.
  intros Hc. simpl in Hc. injection Hc as Hc. apply bound_false_iff in Hc. split.
  - by apply remove_absent.
  - intros v Hv. destruct v as [| | | | |[y| |]| |]; try done. by destruct (Hv y).
Qed.

Lemma remove_absent_noop_witness :
  remove (mkSubstitution [(Var "y", Constant "a")]) (VTerm (Var "x"))
  = Ok (mkSubstitution [(Var "y", Constant "a")]).
Proof.
  apply (remove_absent_noop (mkSubstitution [(Var "y", Constant "a")]) "x").
  reflexivity.
Defined.

(** X14.  Lookup.  On a valid substitution [apply] maps a bound variable to
    the term of its pair; on any substitution it maps a variable for which
    [contains] fails to the variable itself. *)
Theorem apply_lookup (s : Substitution) (x : string) :
  (forall t, valid s = true -> (Var x, t) ∈ subs s -> apply s (VTerm (Var x)) = Ok t) /\
  (contains s (VTerm (Var x)) = Ok false -> apply s (VTerm (Var x)) = Ok (Var x)).
Proof.
  split.
  - intros t [_ HN]%valid_subs_iff Hin. rewrite apply_subst. cbn [subst].
    by rewrite (find_bound _ _ t).
  - intros Hc. simpl in Hc. injection Hc as Hc. apply bound_false_iff in Hc.
    rewrite apply_subst. cbn [subst]. by rewrite find_unbound.
Qed.

Lemma apply_lookup_witness :
  apply (mkSubstitution [(Var "y", Constant "a"); (Var "x", Var "y")]) (VTerm (Var "x"))
  = Ok (Var "y") /\
  apply (mkSubstitution [(Var "y", Constant "a")]) (VTerm (Var "x")) = Ok (Var "x").
Proof.
  split.
  - apply (proj1 (apply_lookup
                    (mkSubstitution [(Var "y", Constant "a"); (Var "x", Var "y")]) "x")).
    + reflexivity.
    + simpl. apply list_elem_of_further, list_elem_of_here.
  - apply (proj2 (apply_lookup (mkSubstitution [(Var "y", Constant "a")]) "x")).
    reflexivity.
Defined.

Lemma subst_unbound (sigma : list (term * term)) (t : term) :
  (forall x, In x (vars t) -> Var x ∉ sigma.*1) -> subst sigma t = t.
Proof.
  induction t as [x|c|f a IH] using term_ind'; intros Hx; cbn [subst].
  - rewrite find_unbound; [done|]. apply Hx. simpl. auto.
  - done.
  - f_equal. rewrite <-(map_id a) at 2. apply map_ext_in.
    intros u Hu. rewrite Forall_forall in IH. apply IH; [by apply list_elem_of_In|].
    intros x Hin. apply Hx. simpl. apply in_flat_map. eauto.
Qed.

(** X15.  [apply] returns a term equal to its argument whenever none of the
    variables of the argument is bound; in particular the empty substitution
    and terms without variables. *)
Theorem apply_unbound_identity (s : Substitution) (t : term) :
  (forall x, In x (vars t) -> contains s (VTerm (Var x)) = Ok false) ->
  apply s (VTerm t) = Ok t.
Proof.
  intros Hx. rewrite apply_subst. f_equal. apply subst_unbound.
  intros x Hin. specialize (Hx x Hin). simpl in Hx. injection Hx as Hx.
  by apply bound_false_iff.
Qed.

Lemma apply_unbound_identity_witness :
  apply (mkSubstitution [(Var "y", Constant "a")])
        (VTerm (FuncTerm (mkFunc "g" 2) [Var "x"; Constant "c"]))
  = Ok (FuncTerm (mkFunc "g" 2) [Var "x"; Constant "c"]).
Proof.
  apply (apply_unbound_identity (mkSubstitution [(Var "y", Constant "a")])
           (FuncTerm (mkFunc "g" 2) [Var "x"; Constant "c"])).
  intros x [<-|[]]. reflexivity.
Defined.

(** X16.  [apply] with the empty substitution returns a term equal to its
    argument, whatever the term. *)
Theorem apply_empty_identity (t : term) :
  apply new_Substitution (VTerm t) = Ok t.
Proof. rewrite apply_subst. simpl. by rewrite subst_nil. Qed.

(** ** compose *)

Lemma trivial_pass_keeps_nontrivial (l : list (term * term)) (vt : term * term) :
  vt ∈ l -> trivial vt = false -> vt ∈ trivial_pass l.
Proof.
  induction l as [l IH] using (induction_ltof1 _ (@length _)). unfold ltof in IH.
  destruct l as [|wt [|ut l]]; intros Hin Hnt.
  - by apply elem_of_nil in Hin.
  - apply list_elem_of_singleton in Hin as ->. simpl. rewrite Hnt. apply list_elem_of_here.
  - cbn [trivial_pass]. destruct (trivial wt) eqn:Hwt.
    + apply elem_of_cons in Hin as [->|Hin]; [congruence|].
      apply elem_of_cons in Hin as [->|Hin]; [apply list_elem_of_here|].
      apply list_elem_of_further, IH; [simpl; lia | done..].
    + apply elem_of_cons in Hin as [->|Hin]; [apply list_elem_of_here|].
      apply list_elem_of_further, (IH (ut :: l)); [simpl; lia | done..].
Qed.

Lemma find_filter_keys (l : list (term * term)) (ks : list term) (x : string) :
  Var x ∉ ks ->
  find (fun vt => isEqual vt.1 (VTerm (Var x))) (filter (fun vt => vt.1 ∉ ks) l)
  = find (fun vt => isEqual vt.1 (VTerm (Var x))) l.
Proof.
  intros Hx. induction l as [|vt l IH]; [done|].
  destruct (decide (vt.1 ∉ ks)) as [Hk|Hk].
  - rewrite filter_cons_True by done. simpl. by rewrite IH.
  - rewrite filter_cons_False by done. simpl.
    destruct (isEqual vt.1 (VTerm (Var x))) eqn:He; [|done].
    apply isEqual_Var_r in He. rewrite He in Hk. done.
Qed.

Lemma subst_composed (sigma1 sigma2 : Substitution) (t : term) :
  valid sigma1 = true -> valid sigma2 = true ->
  subst (subs (composed sigma1 sigma2)) t
  = subst (subs sigma2) (subst (subs sigma1) t).
Proof.
  intros H1 H2.
  pose proof (composed_valid sigma1 sigma2 H1 H2) as HC.
  apply valid_subs_iff in HC as [_ HCN].
  pose proof (proj1 (valid_subs_iff _) H1) as [_ HN1].
  induction t as [x|c|f a IH] using term_ind'.
  - cbn [subst].
    set (T := trivial_pass (rewritten sigma1 sigma2)).
    assert (HTsub : T ⊆ rewritten sigma1 sigma2)
      by apply sublist_subseteq, trivial_pass_sublist.
    destruct (decide (Var x ∈ (subs sigma1).*1)) as [Hin|Hout].
    + apply list_elem_of_fmap in Hin as ([v t1] & Hv & Hin). simpl in Hv. subst v.
      rewrite (find_bound _ _ t1 HN1 Hin). cbn [snd].
      assert (HR : (Var x, subst (subs sigma2) t1) ∈ rewritten sigma1 sigma2).
      { unfold rewritten. by apply (list_elem_of_fmap_2
          (fun vt : term * term => (vt.1, subst (subs sigma2) vt.2)) _ (Var x, t1)). }
      destruct (decide ((Var x, subst (subs sigma2) t1) ∈ T)) as [HT|HT].
      * rewrite (find_bound _ _ (subst (subs sigma2) t1)); [done | done |].
        unfold composed. cbn [subs]. apply elem_of_app. by left.
      * assert (Htriv : trivial (Var x, subst (subs sigma2) t1) = true).
        { destruct (trivial _) eqn:Ht; [done|]. exfalso. apply HT.
          by apply trivial_pass_keeps_nontrivial. }
        unfold trivial in Htriv. simpl in Htriv. apply isEqual_Var_l in Htriv.
        rewrite Htriv. rewrite find_unbound; [done|].
        unfold composed. cbn [subs]. rewrite fmap_app, not_elem_of_app. split.
        -- intros (vt & Hk & HinT)%list_elem_of_fmap.
           apply HT. destruct vt as [v u]. simpl in Hk. subst v.
           assert (u = subst (subs sigma2) t1) as ->; [|done].
           apply (NoDup_keys_functional (rewritten sigma1 sigma2) (Var x));
             [by rewrite rewritten_keys | by apply HTsub | done].
        -- intros (vt & Hk & [Hnot _]%list_elem_of_filter)%list_elem_of_fmap.
           apply Hnot. rewrite <-Hk. by apply (list_elem_of_fmap_2 fst _ (Var x, t1)).
    + rewrite (find_unbound (subs sigma1)) by done.
      unfold composed. cbn [subs]. rewrite find_app_unbound.
      * rewrite find_filter_keys by done. done.
      * intros HinT. apply Hout. rewrite <-(rewritten_keys sigma1 sigma2).
        eapply sublist_subseteq; [|exact HinT].
        apply fmap_sublist, trivial_pass_sublist.
  - done.
  - cbn [subst]. f_equal. rewrite map_map. apply map_ext_in.
    intros u Hu. rewrite Forall_forall in IH. by apply IH, list_elem_of_In.
Qed.

(** X17.  The composition law.  For valid [sigma1] and [sigma2],
    [sigma1.compose(sigma2)] returns a substitution [r] such that
    [r.apply(t)] is [sigma2.apply(sigma1.apply(t))] for every term [t]. *)
Theorem compose_apply (sigma1 sigma2 : Substitution) :
  valid sigma1 = true -> valid sigma2 = true ->
  exists r,
    compose sigma1 (VSubstitution sigma2) = Ok r /\
    forall t, apply r (VTerm t)
              = (u ← apply sigma1 (VTerm t); apply sigma2 (VTerm u)).
Proof.
  intros H1 H2. exists (composed sigma1 sigma2). split; [by apply compose_valid|].
  intros t. rewrite !apply_subst, bind_Ok, apply_subst. f_equal.
  by apply subst_composed.
Qed.

Lemma compose_apply_witness :
  exists r,
    compose (mkSubstitution [(Var "x", Var "y"); (Var "z", Var "w")])
            (VSubstitution (mkSubstitution [(Var "y", Var "x"); (Var "w", Var "z")]))
    = Ok r /\
    forall t, apply r (VTerm t)
              = (u ← apply (mkSubstitution [(Var "x", Var "y"); (Var "z", Var "w")])
                       (VTerm t);
                 apply (mkSubstitution [(Var "y", Var "x"); (Var "w", Var "z")])
                       (VTerm u)).
Proof.
  apply (compose_apply
           (mkSubstitution [(Var "x", Var "y"); (Var "z", Var "w")])
           (mkSubstitution [(Var "y", Var "x"); (Var "w", Var "z")])); reflexivity.
Defined.

(** X18.  Composition is associative up to [apply]: for valid [sigma1],
    [sigma2], [sigma3], both [(sigma1.compose(sigma2)).compose(sigma3)] and
    [sigma1.compose(sigma2.compose(sigma3))] return, and applying either
    result to a term [t] gives
    [sigma3.apply(sigma2.apply(sigma1.apply(t)))]. *)
Theorem compose_assoc_apply (sigma1 sigma2 sigma3 : Substitution) :
  valid sigma1 = true -> valid sigma2 = true -> valid sigma3 = true ->
  exists r12 r23 l r,
    compose sigma1 (VSubstitution sigma2) = Ok r12 /\
    compose r12 (VSubstitution sigma3) = Ok l /\
    compose sigma2 (VSubstitution sigma3) = Ok r23 /\
    compose sigma1 (VSubstitution r23) = Ok r /\
    forall t,
      apply l (VTerm t)
      = Ok (subst (subs sigma3) (subst (subs sigma2) (subst (subs sigma1) t))) /\
      apply r (VTerm t) = apply l (VTerm t).
Proof.
  intros H1 H2 H3.
  pose proof (composed_valid sigma1 sigma2 H1 H2) as H12.
  pose proof (composed_valid sigma2 sigma3 H2 H3) as H23.
  exists (composed sigma1 sigma2), (composed sigma2 sigma3),
    (composed (composed sigma1 sigma2) sigma3), (composed sigma1 (composed sigma2 sigma3)).
  repeat split; try by apply compose_valid.
  - by rewrite apply_subst, !subst_composed.
  - by rewrite !apply_subst, !subst_composed.
Qed.

Lemma compose_assoc_apply_witness :
  let sigma1 := mkSubstitution [(Var "x", Var "y")] in
  let sigma2 := mkSubstitution [(Var "y", Var "z"); (Var "x", Constant "a")] in
  let sigma3 := mkSubstitution [(Var "z", Var "x")] in
  exists r12 r23 l r,
    compose sigma1 (VSubstitution sigma2) = Ok r12 /\
    compose r12 (VSubstitution sigma3) = Ok l /\
    compose sigma2 (VSubstitution sigma3) = Ok r23 /\
    compose sigma1 (VSubstitution r23) = Ok r /\
    forall t,
      apply l (VTerm t)
      = Ok (subst (subs sigma3) (subst (subs sigma2) (subst (subs sigma1) t))) /\
      apply r (VTerm t) = apply l (VTerm t).
Proof.
  apply (compose_assoc_apply
           (mkSubstitution [(Var "x", Var "y")])
           (mkSubstitution [(Var "y", Var "z"); (Var "x", Constant "a")])
           (mkSubstitution [(Var "z", Var "x")])); reflexivity.
Defined.

(** X19.  What [compose] keeps.  For valid [sigma1] and [sigma2] the result
    [r] has: every pair of [sigma2] whose variable [sigma1] does not bind;
    for every pair [(x, t)] of [sigma1] whose rewritten term
    [sigma2.apply(t)] is not [x] itself, the pair [(x, sigma2.apply(t))];
    and as keys only keys of [sigma1] or [sigma2]. *)
Theorem compose_keeps (sigma1 sigma2 : Substitution) :
  valid sigma1 = true -> valid sigma2 = true ->
  exists r,
    compose sigma1 (VSubstitution sigma2) = Ok r /\
    (forall vt, vt ∈ subs sigma2 -> vt.1 ∉ (subs sigma1).*1 -> vt ∈ subs r) /\
    (forall v t, (v, t) ∈ subs sigma1 ->
                 isEqual v (VTerm (subst (subs sigma2) t)) = false ->
                 (v, subst (subs sigma2) t) ∈ subs r) /\
    (forall k, k ∈ (subs r).*1 -> k ∈ (subs sigma1).*1 \/ k ∈ (subs sigma2).*1).
Proof.
  intros H1 H2. exists (composed sigma1 sigma2).
  split; [by apply compose_valid|]. unfold composed. cbn [subs]. repeat split.
  - intros vt Hin Hout. apply elem_of_app. right. by apply list_elem_of_filter.
  - intros v t Hin Hnt. apply elem_of_app. left.
    apply trivial_pass_keeps_nontrivial; [|done]. unfold rewritten.
    by apply (list_elem_of_fmap_2
                (fun vt : term * term => (vt.1, subst (subs sigma2) vt.2)) _ (v, t)).
  - intros k. rewrite fmap_app, elem_of_app. intros [Hk|Hk].
    + left. rewrite <-(rewritten_keys sigma1 sigma2).
      eapply sublist_subseteq; [|exact Hk]. apply fmap_sublist, trivial_pass_sublist.
    + right. eapply sublist_subseteq; [|exact Hk]. apply fmap_sublist, sublist_filter.
Qed.

Lemma compose_keeps_witness :
  let sigma1 := mkSubstitution [(Var "x", Var "y"); (Var "z", Var "w")] in
  let sigma2 := mkSubstitution [(Var "y", Var "x"); (Var "w", Constant "a")] in
  exists r,
    compose sigma1 (VSubstitution sigma2) = Ok r /\
    (forall vt, vt ∈ subs sigma2 -> vt.1 ∉ (subs sigma1).*1 -> vt ∈ subs r) /\
    (forall v t, (v, t) ∈ subs sigma1 ->
                 isEqual v (VTerm (subst (subs sigma2) t)) = false ->
                 (v, subst (subs sigma2) t) ∈ subs r) /\
    (forall k, k ∈ (subs r).*1 -> k ∈ (subs sigma1).*1 \/ k ∈ (subs sigma2).*1).
Proof.
  apply (compose_keeps
           (mkSubstitution [(Var "x", Var "y"); (Var "z", Var "w")])
           (mkSubstitution [(Var "y", Var "x"); (Var "w", Constant "a")])); reflexivity.
Defined.

Lemma trivial_pass_none (l : list (term * term)) :
  Forall (fun vt => trivial vt = false) l -> trivial_pass l = l.
Proof.
  induction 1 as [|vt l Hvt _ IH]; [done|]. simpl. by rewrite Hvt, IH.
Qed.

(** X20.  The empty substitution is an identity of [compose]: on the left
    for every valid substitution, on the right for every valid substitution
    none of whose pairs binds a variable to itself. *)
Theorem compose_identity (sigma : Substitution) :
  valid sigma = true ->
  compose new_Substitution (VSubstitution sigma) = Ok sigma /\
  (forallb (fun vt => negb (trivial vt)) (subs sigma) = true ->
   compose sigma (VSubstitution new_Substitution) = Ok sigma).
Proof.
  intros Hv. split; [by apply compose_empty_left|].
  intros Hnt. rewrite compose_empty_right by done.
  rewrite trivial_pass_none; [by destruct sigma|].
  apply Forall_forall. intros vt Hin%list_elem_of_In.
  rewrite forallb_forall in Hnt. by apply negb_true_iff, Hnt.
Qed.

Lemma compose_identity_witness :
  let sigma := mkSubstitution [(Var "x", Var "y"); (Var "y", Constant "a")] in
  compose new_Substitution (VSubstitution sigma) = Ok sigma /\
  compose sigma (VSubstitution new_Substitution) = Ok sigma.
Proof.
  pose proof (compose_identity
                (mkSubstitution [(Var "x", Var "y"); (Var "y", Constant "a")])
                eq_refl) as [Hl Hr].
  split; [exact Hl | apply Hr; reflexivity].
Defined.

(** ** The arity invariant *)

Lemma call_Ok_inv (f : Func) (args : list term) (t : term) :
  _call f (map VTerm args) = Ok t ->
  Z.of_nat (length args) = arity f /\ t = FuncTerm f args.
Proof.
  unfold _call. rewrite length_map.
  destruct (Z.of_nat (length args) =? arity f) eqn:Hlen; [|done].
  apply Z.eqb_eq in Hlen. cbn [negb].
  rewrite new_Func_fields, bind_Ok, new_FuncTerm_terms. by intros [= <-].
Qed.

Lemma well_formed_subst (sigma : list (term * term)) (t : term) :
  Forall (fun vt => well_formed vt.2 = true) sigma ->
  well_formed t = true -> well_formed (subst sigma t) = true.
Proof.
  intros Hs. induction t as [x|c|f a IH] using term_ind'; intros Ht; cbn [subst].
  - destruct (find _ sigma) as [vt|] eqn:Hf; [|done].
    apply find_some in Hf as [Hin%list_elem_of_In _].
    rewrite Forall_forall in Hs. by apply Hs.
  - done.
  - simpl in Ht. apply andb_true_iff in Ht as [Hlen Hall]. simpl.
    rewrite length_map, Hlen. simpl. apply forallb_forall.
    intros u (w & <- & Hw)%in_map_iff. rewrite Forall_forall in IH.
    apply IH; [by apply list_elem_of_In|]. rewrite forallb_forall in Hall. by apply Hall.
Qed.

(** X21.  Terms keep the arity invariant.  A call [f(...args)] on arguments
    that have it returns a term that has it, and [apply] returns a term that
    has it whenever its argument and the terms bound by the substitution
    do. *)
Theorem well_formed_kept (s : Substitution) :
  (forall f args t, _call f (map VTerm args) = Ok t ->
                    forallb well_formed args = true -> well_formed t = true) /\
  (forall t r, forallb (fun vt => well_formed vt.2) (subs s) = true ->
               well_formed t = true ->
               apply s (VTerm t) = Ok r -> well_formed r = true).
Proof.
  split.
  - intros f args t [Hlen ->]%call_Ok_inv Hargs.
    simpl. apply Z.eqb_eq in Hlen. by rewrite Hlen.
  - intros t r Hs Ht. rewrite apply_subst. intros [= <-].
    apply well_formed_subst; [|done]. apply Forall_forall.
    intros vt Hin%list_elem_of_In. rewrite forallb_forall in Hs. by apply Hs.
Qed.

Lemma well_formed_kept_witness :
  well_formed (FuncTerm (mkFunc "g" 2) [Var "y"; Constant "c"]) = true /\
  well_formed (FuncTerm (mkFunc "f" 1) [FuncTerm (mkFunc "g" 2) [Var "y"; Constant "c"]])
  = true.
Proof.
  pose proof (well_formed_kept
                (mkSubstitution [(Var "x", FuncTerm (mkFunc "g" 2) [Var "y"; Constant "c"])]))
    as [Hcall Happ].
  split.
  - apply (Hcall (mkFunc "g" 2) [Var "y"; Constant "c"]); reflexivity.
  - apply (Happ (FuncTerm (mkFunc "f" 1) [Var "x"])); reflexivity.
Defined.

(** X22.  [compose] keeps the arity invariant: for valid operands all of
    whose bound terms have it, every term bound by the result has it. *)
Theorem compose_well_formed (sigma1 sigma2 : Substitution) :
  valid sigma1 = true -> valid sigma2 = true ->
  forallb (fun vt => well_formed vt.2) (subs sigma1) = true ->
  forallb (fun vt => well_formed vt.2) (subs sigma2) = true ->
  exists r, compose sigma1 (VSubstitution sigma2) = Ok r /\
            forallb (fun vt => well_formed vt.2) (subs r) = true.
Proof.
  intros H1 H2 Hw1 Hw2. exists (composed sigma1 sigma2).
  split; [by apply compose_valid|].
  rewrite forallb_forall in Hw1, Hw2. apply forallb_forall.
  intros vt Hin%list_elem_of_In. unfold composed in Hin. cbn [subs] in Hin.
  apply elem_of_app in Hin as [Hin|Hin].
  - apply (sublist_subseteq _ _ (trivial_pass_sublist _)) in Hin.
    unfold rewritten in Hin. apply list_elem_of_fmap in Hin as (wt & -> & Hin).
    cbn [snd]. apply well_formed_subst; [|by apply Hw1, list_elem_of_In].
    apply Forall_forall. intros ut Hut. by apply Hw2, list_elem_of_In.
  - apply list_elem_of_filter in Hin as [_ Hin]. by apply Hw2, list_elem_of_In.
Qed.

Lemma compose_well_formed_witness :
  exists r,
    compose (mkSubstitution [(Var "x", FuncTerm (mkFunc "g" 2) [Var "y"; Constant "c"])])
            (VSubstitution (mkSubstitution [(Var "y", Constant "a")])) = Ok r /\
    forallb (fun vt => well_formed vt.2) (subs r) = true.
Proof.
  apply (compose_well_formed
           (mkSubstitution [(Var "x", FuncTerm (mkFunc "g" 2) [Var "y"; Constant "c"])])
           (mkSubstitution [(Var "y", Constant "a")])); reflexivity.
Defined.

(** ** cloneSubstitution *)

Lemma foldR_add_Ok_inv (l acc : list (term * term)) (r : Substitution) :
  valid_subs acc = true ->
  foldR (fun a vt => add a (VTerm vt.1) (VTerm vt.2)) l (mkSubstitution acc) = Ok r ->
  r = mkSubstitution (acc ++ l) /\ valid r = true.
Proof.
  revert acc. induction l as [|[v t] l IH]; intros acc Hacc; cbn [foldR fst snd].
  - intros [= <-]. by rewrite app_nil_r.
  - destruct (add (mkSubstitution acc) (VTerm v) (VTerm t)) as [a|e] eqn:Hadd; [|done].
    rewrite bind_Ok.
    pose proof (add_valid (mkSubstitution acc) _ _ _ Hacc Hadd) as Ha.
    apply add_Ok_inv in Hadd as (x & t' & [= ->] & [= <-] & _ & ->).
    cbn [subs] in *. intros Hr. apply IH in Hr as [-> Hv]; [|done].
    split; [by rewrite <-app_assoc | done].
Qed.

(** X23.  [cloneSubstitution] returns exactly on valid substitutions, and
    then returns an equal one; on a substitution with a repeated key or a
    key that is not a [Variable] it throws, and throws "Argument must be of
    type substitution" on any other value. *)
Theorem cloneSubstitution_iff (v : value) (r : Substitution) :
  cloneSubstitution v = Ok r <-> v = VSubstitution r /\ valid r = true.
Proof.
  split.
  - destruct v as [| | | | | | |s]; try done. unfold cloneSubstitution.
    rewrite (foldR_ext _ (fun a vt => add a (VTerm vt.1) (VTerm vt.2)));
      [|intros a vt _; by rewrite !cloneTerm_id, !bind_Ok].
    intros [Hr Hv]%foldR_add_Ok_inv; [|done]. simpl in Hr. subst r.
    split; [by destruct s | done].
  - intros [-> Hv]. by apply cloneSubstitution_valid.
Qed.

Lemma cloneSubstitution_iff_witness :
  cloneSubstitution
    (VSubstitution (mkSubstitution [(Var "x", Var "x"); (Var "y", Constant "a")]))
  = Ok (mkSubstitution [(Var "x", Var "x"); (Var "y", Constant "a")]).
Proof.
  apply (proj2 (cloneSubstitution_iff
                  (VSubstitution (mkSubstitution [(Var "x", Var "x"); (Var "y", Constant "a")]))
                  (mkSubstitution [(Var "x", Var "x"); (Var "y", Constant "a")]))).
  split; reflexivity.
Defined.

(** ** Copies on the object store *)

(** X24.  [cloneTerm] makes a deep copy: on a term object of the store it
    returns a pointer to a term equal to the original, made only of objects
    allocated by the call, and every object that existed before is as it
    was. *)
Theorem cloneTerm_fresh_copy (d : nat) (h : list Heap.obj) (t : nat) (tm : term) :
  Heap.read_from 0 d h t = Some tm ->
  exists r h',
    Heap.cloneTerm d t h = Ok (r, h')
    /\ h `prefix_of` h'
    /\ Heap.read_from (length h) d h' r = Some tm.
Proof.
  intros [Hr Hd]%read_from_repr.
  destruct (cloneTerm_allocs d h t tm Hr Hd) as (r & k & Hc & _ & Hrepr).
  exists r, (h ++ k). split; [done|]. split; [by apply prefix_app_r|].
  by apply repr_read_from.
Qed.

Lemma cloneTerm_fresh_copy_witness :
  exists r h',
    Heap.cloneTerm 2 4 example_store = Ok (r, h')
    /\ example_store `prefix_of` h'
    /\ Heap.read_from 7 2 h' r = Some (FuncTerm (mkFunc "g" 2) [Var "y"; Constant "c"]).
Proof.
  apply (cloneTerm_fresh_copy 2 example_store 4
           (FuncTerm (mkFunc "g" 2) [Var "y"; Constant "c"])).
  reflexivity.
Defined.

(** X25.  [cloneSubstitution] makes a deep copy: on a valid substitution
    object of the store it returns a pointer to a new substitution object
    whose pairs equal the original's and are made only of objects allocated
    by the call, and every object that existed before is as it was. *)
Theorem cloneSubstitution_fresh_copy (d : nat) (h : list Heap.obj) (s : nat)
    (sigma : Substitution) :
  Heap.read_subst 0 d h s = Some sigma -> valid sigma = true ->
  exists r h' d',
    Heap.cloneSubstitution d s h = Ok (r, h')
    /\ h `prefix_of` h'
    /\ Heap.read_subst (length h) d' h' r = Some sigma.
Proof.
  intros [Hs Hd]%read_subst_repr Hv.
  destruct (cloneSubstitution_store d h s (subs sigma) Hs Hv Hd)
    as (h' & ps & Hc & Hk & Hl & Hps).
  exists (length h), h', (pairs_height (subs sigma)).
  split; [done|]. split; [by apply keeps_prefix|].
  rewrite (repr_read_subst (length h) h' (length h) ps (subs sigma)) by done.
  by destruct sigma.
Qed.

Lemma cloneSubstitution_fresh_copy_witness :
  exists r h' d',
    Heap.cloneSubstitution 2 5 example_store = Ok (r, h')
    /\ example_store `prefix_of` h'
    /\ Heap.read_subst 7 d' h' r
       = Some (mkSubstitution
                 [(Var "x", FuncTerm (mkFunc "g" 2) [Var "y"; Constant "c"])]).
Proof.
  apply (cloneSubstitution_fresh_copy 2 example_store 5
           (mkSubstitution [(Var "x", FuncTerm (mkFunc "g" 2) [Var "y"; Constant "c"])]));
    reflexivity.
Defined.

(** X26.  [add] stores what it is given: on the store, a successful
    [s.add(v, t)] allocates nothing, changes no object but [s], and appends
    to the array of [s] the pair of the very pointers [v] and [t], not
    copies. *)
Theorem add_stores_pointers (d : nat) (h : list Heap.obj) (s v t : nat)
    (sigma : Substitution) (ps : list (nat * nat)) (x : string) :
  Heap.read_subst 0 d h s = Some sigma ->
  h !! s = Some (Heap.OSubstitution ps) ->
  h !! v = Some (Heap.OVariable x) -> Heap.isTerm h t = true ->
  contains sigma (VTerm (Var x)) = Ok false ->
  exists h',
    Heap.add d s v t h = Ok (tt, h')
    /\ length h' = length h
    /\ h' !! s = Some (Heap.OSubstitution (ps ++ [(v, t)]))
    /\ forall l, l ≠ s -> h' !! l = h !! l.
Proof.
  intros [(ps' & Hs' & Hps) Hd]%read_subst_repr Hs Hv Ht Hc.
  rewrite Hs in Hs'. injection Hs' as <-.
  simpl in Hc. injection Hc as Hc. apply bound_false_iff in Hc.
  exists (<[s := Heap.OSubstitution (ps ++ [(v, t)])]> h). repeat split.
  - eapply add_store; [done..| |done].
    eapply Forall_impl; [exact Hd|]. by intros ? [? ?].
  - apply length_insert.
  - apply list_lookup_insert_eq. by eapply lookup_lt_Some.
  - intros l Hl. by apply list_lookup_insert_ne.
Qed.

Lemma add_stores_pointers_witness :
  exists h',
    Heap.add 2 6 0 4 example_store = Ok (tt, h')
    /\ length h' = length example_store
    /\ h' !! 6%nat = Some (Heap.OSubstitution ([(1, 2)] ++ [(0, 4)])%nat)
    /\ forall l, l ≠ 6%nat -> h' !! l = example_store !! l.
Proof.
  apply (add_stores_pointers 2 example_store 6 0 4
           (mkSubstitution [(Var "y", Constant "a")]) [(1, 2)%nat] "x"); reflexivity.
Defined.

(** ** Order of the result of compose, variables of the result of apply *)

Lemma trivial_pass_removed_trivial (l : list (term * term)) (vt : term * term) :
  vt ∈ l -> vt ∉ trivial_pass l -> trivial vt = true.
Proof.
  intros Hin Hout. destruct (trivial vt) eqn:Ht; [done|].
  exfalso. apply Hout. by apply trivial_pass_keeps_nontrivial.
Qed.

(** X27.  Order of the result.  For valid [sigma1] and [sigma2],
    [sigma1.compose(sigma2)] returns the pairs [R ++ S0] where [R] lists
    rewritten pairs [(x, sigma2.apply(t))] of [sigma1] in [sigma1]'s order,
    every rewritten pair left out of [R] being one that binds a variable to
    itself, and [S0] lists, in [sigma2]'s order, exactly the pairs of
    [sigma2] whose variable [sigma1] does not bind. *)
Theorem compose_order (sigma1 sigma2 : Substitution) :
  valid sigma1 = true -> valid sigma2 = true ->
  exists r R,
    compose sigma1 (VSubstitution sigma2) = Ok r /\
    subs r = R ++ filter (fun vt => vt.1 ∉ (subs sigma1).*1) (subs sigma2) /\
    R `sublist_of` map (fun vt => (vt.1, subst (subs sigma2) vt.2)) (subs sigma1) /\
    forall v t, (v, t) ∈ subs sigma1 -> (v, subst (subs sigma2) t) ∉ R ->
                isEqual v (VTerm (subst (subs sigma2) t)) = true.
Proof.
  intros H1 H2. exists (composed sigma1 sigma2), (trivial_pass (rewritten sigma1 sigma2)).
  split; [by apply compose_valid|]. split; [done|].
  split; [apply trivial_pass_sublist|].
  intros v t Hin Hout.
  apply (trivial_pass_removed_trivial (rewritten sigma1 sigma2) (v, subst (subs sigma2) t));
    [|done].
  unfold rewritten.
  by apply (list_elem_of_fmap_2
              (fun vt : term * term => (vt.1, subst (subs sigma2) vt.2)) _ (v, t)).
Qed.

Lemma compose_order_witness :
  let sigma1 := mkSubstitution [(Var "x", Var "y"); (Var "z", Constant "a")] in
  let sigma2 := mkSubstitution [(Var "y", Var "x"); (Var "w", Var "z")] in
  exists r R,
    compose sigma1 (VSubstitution sigma2) = Ok r /\
    subs r = R ++ filter (fun vt => vt.1 ∉ (subs sigma1).*1) (subs sigma2) /\
    R `sublist_of` map (fun vt => (vt.1, subst (subs sigma2) vt.2)) (subs sigma1) /\
    forall v t, (v, t) ∈ subs sigma1 -> (v, subst (subs sigma2) t) ∉ R ->
                isEqual v (VTerm (subst (subs sigma2) t)) = true.
Proof.
  apply (compose_order
           (mkSubstitution [(Var "x", Var "y"); (Var "z", Constant "a")])
           (mkSubstitution [(Var "y", Var "x"); (Var "w", Var "z")])); reflexivity.
Defined.

Lemma subst_vars (sigma : list (term * term)) (t : term) (y : string) :
  In y (vars (subst sigma t)) ->
  (In y (vars t) /\ Var y ∉ sigma.*1) \/ exists vt, vt ∈ sigma /\ In y (vars vt.2).
Proof.
  induction t as [x|c|f a IH] using term_ind'; cbn [subst]; intros Hy.
  - destruct (find _ sigma) as [vt|] eqn:Hf.
    + right. exists vt. apply find_some in Hf as [Hin _]. by apply list_elem_of_In in Hin.
    + left. simpl in Hy. destruct Hy as [<-|[]]. split; [simpl; auto|].
      intros (vt & Hk & Hin)%list_elem_of_fmap.
      pose proof (find_none _ _ Hf vt (proj1 (list_elem_of_In _ _) Hin)) as Hne.
      simpl in Hne. rewrite <-Hk in Hne.
      by rewrite (proj2 (isEqual_Var_r (Var x) x) eq_refl) in Hne.
  - done.
  - simpl in Hy. apply in_flat_map in Hy as (u' & Hu' & Hy).
    apply in_map_iff in Hu' as (u & <- & Hu).
    rewrite Forall_forall in IH.
    destruct (IH u (proj2 (list_elem_of_In _ _) Hu) Hy) as [[Hin Hout]|Hr]; [|by right].
    left. split; [|done]. simpl. apply in_flat_map. eauto.
Qed.

(** X28.  Variables of the result of [apply]: every variable of the term
    [apply] returns is either a variable of the argument that the
    substitution does not bind, or a variable of one of the terms the
    substitution binds. *)
Theorem apply_vars (s : Substitution) (t r : term) (y : string) :
  apply s (VTerm t) = Ok r -> In y (vars r) ->
  (In y (vars t) /\ contains s (VTerm (Var y)) = Ok false)
  \/ exists vt, vt ∈ subs s /\ In y (vars vt.2).
Proof.
  rewrite apply_subst. intros [= <-] Hy.
  destruct (subst_vars _ _ _ Hy) as [[Hin Hout]|Hr]; [left|by right].
  split; [done|]. simpl. f_equal. by apply bound_false_iff.
Qed.

Lemma apply_vars_witness :
  (In "y" (vars (FuncTerm (mkFunc "f" 1) [Var "x"]))
   /\ contains (mkSubstitution [(Var "x", Var "y")]) (VTerm (Var "y")) = Ok false)
  \/ exists vt, vt ∈ subs (mkSubstitution [(Var "x", Var "y")]) /\ In "y" (vars vt.2).
Proof.
  apply (apply_vars (mkSubstitution [(Var "x", Var "y")])
           (FuncTerm (mkFunc "f" 1) [Var "x"]) (FuncTerm (mkFunc "f" 1) [Var "y"]) "y").
  - reflexivity.
  - simpl. auto.
Defined.

Lemma add_duplicate_iff_witness :
  add (mkSubstitution [(Var "x", Constant "a")]) (VTerm (Var "x")) (VTerm (Var "y"))
  = Throw VariableAlreadyExists /\
  add (mkSubstitution [(Var "x", Constant "a")]) (VTerm (Constant "c")) (VString "t")
  = Throw FirstArgumentNotVariable /\
  add (mkSubstitution [(Var "x", Constant "a")]) (VTerm (Var "x")) (VString "t")
  = Throw SecondArgumentNotTerm.
Proof.
  pose proof (add_duplicate_iff (mkSubstitution [(Var "x", Constant "a")]) "x" (Var "y"))
    as (Hdup & Hfirst & Hsecond).
  split; [apply Hdup; reflexivity|].
  split; [apply Hfirst; intros y; discriminate | apply Hsecond; reflexivity].
Defined.
